(** * contentstorage-js: content store, path resolver, interpolator and
      fetch coordinator

    A shallow embedding of [src/lib/contentManagement.ts],
    [helpers/populateTextWithVariables] and [src/lib/functions/fetchContent.ts],
    followed by the properties the specification states about them. *)

From Stdlib Require Import ZArith Ascii String List Bool Lia.
From stdpp Require Import base option gmap strings list pretty.
From Equations Require Import Equations.

Local Open Scope string_scope.
Local Open Scope list_scope.
Set Warnings "-register-all".

(* ===================================================================== *)
(** ** JavaScript values

    The content handled by the SDK is JSON data, so values are the JSON
    constructors plus [undefined].  Numbers are kept as integers (no claim
    does arithmetic on them; [NaN] and fractions are outside the model).
    An object is its list of own properties, read first-match. *)

Inductive value : Type :=
| VUndefined
| VNull
| VBool (b : bool)
| VNum (n : Z)
| VStr (s : string)
| VArr (elems : list value)
| VObj (fields : list (string * value)).

(** The result of [typeof]. *)
Inductive type_tag := TUndefined | TObject | TBoolean | TNumber | TString.

Definition typeof (v : value) : type_tag :=
  match v with
  | VUndefined => TUndefined
  | VNull => TObject
  | VBool _ => TBoolean
  | VNum _ => TNumber
  | VStr _ => TString
  | VArr _ => TObject
  | VObj _ => TObject
  end.

Definition type_tag_eqb (a b : type_tag) : bool :=
  match a, b with
  | TUndefined, TUndefined | TObject, TObject | TBoolean, TBoolean
  | TNumber, TNumber | TString, TString => true
  | _, _ => false
  end.

(** ToBoolean: what [if (v)], [!v] and [a && b] test. *)
Definition truthy (v : value) : bool :=
  match v with
  | VUndefined | VNull => false
  | VBool b => b
  | VNum n => negb (n =? 0)%Z
  | VStr s => negb (String.eqb s "")
  | VArr _ | VObj _ => true
  end.

Definition isArray (v : value) : bool :=
  match v with VArr _ => true | _ => false end.

(** First-match lookup in a property list. *)
Fixpoint assoc {A : Type} (key : string) (fields : list (string * A)) : option A :=
  match fields with
  | [] => None
  | (k, v) :: rest => if String.eqb k key then Some v else assoc key rest
  end.

(** Array indices are canonical decimal numerals: ["0"], ["7"], ["12"],
    never ["01"] or [""]. *)
Definition digit_of (c : ascii) : option nat :=
  let n := nat_of_ascii c in
  if (48 <=? n)%nat && (n <=? 57)%nat then Some (n - 48)%nat else None.

Fixpoint digits_value (acc : nat) (s : string) : option nat :=
  match s with
  | EmptyString => Some acc
  | String c rest =>
      match digit_of c with
      | Some d => digits_value (10 * acc + d) rest
      | None => None
      end
  end.

Definition array_index (key : string) : option nat :=
  match key with
  | EmptyString => None
  | String "0" EmptyString => Some 0%nat
  | String "0" _ => None
  | _ => digits_value 0 key
  end.

(** Exceptions.  The source throws plain [Error]s told apart by their
    message; each message template is a constructor here.  [TypeError] is
    what the engine raises for a property read on [null]/[undefined] or an
    [in] test against a non-object. *)
Inductive exn :=
| TypeError
| InvalidContentJson          (* setContentLanguage *)
| InitNoContentKey            (* initContentStorage: No contentKey provided *)
| InitNoLanguageCodes         (* initContentStorage: No languageCodes provided *)
| InitInvalidConfig           (* initContentStorage: Invalid config. *)
| NoLanguageFound             (* fetchContent *)
| NoAppConfigFound
| NoContentKeyFound
| NoDataReceived              (* body is null or undefined *)
| ExpectedJsonObject (t : type_tag)  (* body is not of type object *)
| AxiosCancel
| AxiosError (status responseData : value).

Inductive completion (A : Type) :=
| Normal (a : A)
| Throw (e : exn).
Arguments Normal {A} a.
Arguments Throw {A} e.

(** [key in o].  Content is parsed JSON, so a container has its own
    properties and whatever [Object.prototype] or [Array.prototype] lends
    it; the inherited members are methods and prototype objects, none of
    them a string, an image or a variation, and they are left out here.
    On a primitive, [null] or [undefined] the operator raises. *)
Definition has_property (key : string) (o : value) : completion bool :=
  match o with
  | VObj fields => Normal (bool_decide (is_Some (assoc key fields)))
  | VArr elems =>
      Normal (match array_index key with
              | Some i => (i <? length elems)%nat
              | None => String.eqb key "length"
              end)
  | _ => Throw TypeError
  end.

(** [o[key]] and [o.key].  Every property read in the modelled code is on
    a value already known to be an object, or on a possibly-null
    configuration; primitives have none of the properties read there. *)
Definition get (o : value) (key : string) : completion value :=
  match o with
  | VUndefined | VNull => Throw TypeError
  | VObj fields => Normal (default VUndefined (assoc key fields))
  | VArr elems =>
      Normal (match array_index key with
              | Some i => default VUndefined (elems !! i)
              | None => if String.eqb key "length"
                        then VNum (Z.of_nat (length elems)) else VUndefined
              end)
  | VBool _ | VNum _ | VStr _ => Normal VUndefined
  end.

(** [String(v)] on JSON data. *)
Fixpoint to_String (v : value) : string :=
  match v with
  | VUndefined => "undefined"
  | VNull => "null"
  | VBool true => "true"
  | VBool false => "false"
  | VNum n => pretty n
  | VStr s => s
  | VArr elems =>
      (fix join (first : bool) (l : list value) : string :=
         match l with
         | [] => ""
         | x :: rest =>
             (if first then "" else ",") +:+
             (match x with VUndefined | VNull => "" | _ => to_String x end) +:+
             join false rest
         end) true elems
  | VObj _ => "[object Object]"
  end.

(** Structural comparison, used for the keys of [window.memoryMap]. *)
Fixpoint value_eqb (a b : value) : bool :=
  match a, b with
  | VUndefined, VUndefined => true
  | VNull, VNull => true
  | VBool x, VBool y => Bool.eqb x y
  | VNum x, VNum y => (x =? y)%Z
  | VStr x, VStr y => String.eqb x y
  | VArr xs, VArr ys =>
      (fix go (l1 l2 : list value) : bool :=
         match l1, l2 with
         | [], [] => true
         | x :: r1, y :: r2 => value_eqb x y && go r1 r2
         | _, _ => false
         end) xs ys
  | VObj xs, VObj ys =>
      (fix go (l1 l2 : list (string * value)) : bool :=
         match l1, l2 with
         | [], [] => true
         | (k1, x) :: r1, (k2, y) :: r2 =>
             String.eqb k1 k2 && value_eqb x y && go r1 r2
         | _, _ => false
         end) xs ys
  | _, _ => false
  end.

(* ===================================================================== *)
(** ** The module state and the console *)

(** [`${API_URL}/pending-changes/get-json?languageCode=${language}`] and
    [`${BASE_URL}/${contentKey}/content/${language}.json`], kept as their
    interpolated parts. *)
Inductive url :=
| DraftUrl (languageCode : string)
| CdnUrl (contentKey languageCode : string).

(** One constructor per message template of the source, carrying the
    values interpolated into it. *)
Inductive message :=
| ContentLoaded
| FailedToLoadContent (e : exn)
| GetText_NotLoaded (contentId : string)
| GetText_PathNotFound (contentId : string)
| GetText_NotAString (contentId : string) (actual : type_tag)
| GetImage_NotLoaded (contentId : string)
| GetImage_PathNotFound (contentId : string)
| GetImage_NotAnImage (contentId : string) (actual : value)
| GetImage_Url (url : value)
| GetVariation_NotLoaded (contentId : string) (variationKey : option string)
| GetVariation_PathNotFound (contentId : string)
| GetVariation_ValueNotAString (variationKey contentId : string) (actual : type_tag)
| GetVariation_ReturningDefault (variationKey contentId : string)
| GetVariation_DefaultNotAString (contentId : string) (actual : type_tag)
| GetVariation_NeitherFound (variationKey : option string) (contentId : string)
| GetVariation_NotAVariation (contentId : string) (actual : value)
| Variable_NotFound (variableName textKey placeholder : string)
| Fetch_Starting (language : value)
| Fetch_ReceivedJson (language : value)
| Fetch_RequestCancelled (language : value)
| Fetch_ErrorProcessing (language : value) (fileUrl : url)
| Fetch_ErrorStatus (status : value)
| Fetch_ErrorResponseData (responseData : option value)
| Fetch_ErrorMessage (e : exn)
| Fetch_ErrorDetail (e : exn).

Inductive level := Log | Warn | Error.

(** The node-type tag of an instrumentation entry. *)
Inductive entry_type := EText | EImage | EVariation.

(** [{ ids: Set<string>, type, variation? }]: a JavaScript [Set] keeps
    insertion order and ignores a second [add] of the same element. *)
Record memory_entry := {
  ids : list string;
  type : entry_type;
  variation : option string;
}.

Definition set_add (x : string) (s : list string) : list string :=
  if bool_decide (x ∈ s) then s else s ++ [x].

(** [window.memoryMap] is a [Map]; its keys are compared structurally
    here.  [Map.set] on a present key keeps the key's position. *)
Fixpoint map_get {A : Type} (key : value) (m : list (value * A)) : option A :=
  match m with
  | [] => None
  | (k, v) :: rest => if value_eqb k key then Some v else map_get key rest
  end.

Fixpoint map_set {A : Type} (key : value) (x : A) (m : list (value * A))
  : list (value * A) :=
  match m with
  | [] => [(key, x)]
  | (k, v) :: rest =>
      if value_eqb k key then (k, x) :: rest else (k, v) :: map_set key x rest
  end.

(** The variables of [contentManagement.ts] and the host objects they
    touch.  [in_frame] is the value of
    [window.parent && window.parent !== window]. *)
Record World := {
  activeContent : value;
  appConfig : value;
  memoryMap : list (value * memory_entry);
  currentLanguageCode : value;
  in_frame : bool;
  console : list (level * message);
}.

(** State at module load: [activeContent = null], [appConfig = null],
    [window.memoryMap = new Map()], [window.currentLanguageCode = null]. *)
Definition initial_world (frame : bool) : World :=
  {| activeContent := VNull; appConfig := VNull; memoryMap := [];
     currentLanguageCode := VNull; in_frame := frame; console := [] |}.

(** *** A state-and-exception monad

    A statement runs in a world and yields a completion together with the
    world it leaves behind; a [Throw] keeps the writes made before it. *)
Definition M (A : Type) : Type := World -> completion A * World.

Definition ret {A} (a : A) : M A := fun w => (Normal a, w).
Definition throw {A} (e : exn) : M A := fun w => (Throw e, w).
Definition bind {A B} (c : M A) (k : A -> M B) : M B :=
  fun w => match c w with
           | (Normal a, w') => k a w'
           | (Throw e, w') => (Throw e, w')
           end.
Definition lift {A} (c : completion A) : M A := fun w => (c, w).
Definition try_catch {A} (body : M A) (handler : exn -> M A) : M A :=
  fun w => match body w with
           | (Normal a, w') => (Normal a, w')
           | (Throw e, w') => handler e w'
           end.

Notation "'do' x <- c ; k" := (bind c (fun x => k))
  (at level 10, x name, c at level 100, k at level 200).
Notation "c ;; k" := (bind c (fun _ => k))
  (at level 100, k at level 200, right associativity).

Definition read {A} (f : World -> A) : M A := fun w => (Normal (f w), w).

Definition set_activeContent (v : value) : M unit := fun w =>
  (Normal tt,
   {| activeContent := v; appConfig := appConfig w; memoryMap := memoryMap w;
      currentLanguageCode := currentLanguageCode w; in_frame := in_frame w;
      console := console w |}).

Definition set_appConfig (v : value) : M unit := fun w =>
  (Normal tt,
   {| activeContent := activeContent w; appConfig := v; memoryMap := memoryMap w;
      currentLanguageCode := currentLanguageCode w; in_frame := in_frame w;
      console := console w |}).

Definition set_currentLanguageCode (v : value) : M unit := fun w =>
  (Normal tt,
   {| activeContent := activeContent w; appConfig := appConfig w;
      memoryMap := memoryMap w; currentLanguageCode := v;
      in_frame := in_frame w; console := console w |}).

Definition set_memoryMap (m : list (value * memory_entry)) : M unit := fun w =>
  (Normal tt,
   {| activeContent := activeContent w; appConfig := appConfig w; memoryMap := m;
      currentLanguageCode := currentLanguageCode w; in_frame := in_frame w;
      console := console w |}).

Definition emit (l : level) (msg : message) : M unit := fun w =>
  (Normal tt,
   {| activeContent := activeContent w; appConfig := appConfig w;
      memoryMap := memoryMap w; currentLanguageCode := currentLanguageCode w;
      in_frame := in_frame w; console := console w ++ [(l, msg)] |}).

Definition console_log := emit Log.
Definition console_warn := emit Warn.
Definition console_error := emit Error.

(* ===================================================================== *)
(** ** Content Store: [setContentLanguage] and [initContentStorage] *)

(** The statements inside the [try] block. *)
Definition setContentLanguage_body (languageCode contentJson : value) : M unit :=
  set_activeContent contentJson ;;
  (* typeof window !== 'undefined': the module's own top level already
     writes window.memoryMap, so window is defined wherever it loaded *)
  set_currentLanguageCode languageCode ;;
  console_log ContentLoaded.

Definition setContentLanguage_handler (error : exn) : M unit :=
  set_activeContent VNull ;;
  set_currentLanguageCode VNull ;;
  console_error (FailedToLoadContent error).

Definition setContentLanguage (languageCode contentJson : value) : M unit :=
  if negb (truthy contentJson) || negb (type_tag_eqb (typeof contentJson) TObject)
  then throw InvalidContentJson
  else try_catch (setContentLanguage_body languageCode contentJson)
                 setContentLanguage_handler.

Definition initContentStorage (config : value) : M unit :=
  do invalid <-
    (if negb (truthy config) then ret true
     else if negb (type_tag_eqb (typeof config) TObject) then ret true
     else do contentKey <- lift (get config "contentKey");
          if negb (truthy contentKey) then ret true
          else do languageCodes <- lift (get config "languageCodes");
               ret (negb (isArray languageCodes)));
  if (invalid : bool) then
    do contentKey <- lift (get config "contentKey");
    if negb (truthy contentKey) then throw InitNoContentKey
    else
      do languageCodes <- lift (get config "languageCodes");
      if negb (isArray languageCodes) then throw InitNoLanguageCodes
      else throw InitInvalidConfig
  else set_appConfig config.

(* ===================================================================== *)
(** ** Variable Interpolator: [populateTextWithVariables]

    [text.replace(/\{(\w+)}/g, replacer)] scans the text left to right.
    At a position holding an opening brace the pattern can only match with
    the longest run of word characters that follows (a shorter run would
    need a word character to be the closing brace), so one attempt per
    position decides it.  After a match the scan resumes behind the closing
    brace; otherwise the character is copied and the scan moves on by one.
    Word characters are ASCII, so scanning bytes of UTF-8 text agrees with
    scanning UTF-16 code units. *)

(** [\w] without the unicode flag: [A-Za-z0-9_]. *)
Definition is_word_char (c : ascii) : bool :=
  let n := nat_of_ascii c in
  ((65 <=? n)%nat && (n <=? 90)%nat) || ((97 <=? n)%nat && (n <=? 122)%nat)
  || ((48 <=? n)%nat && (n <=? 57)%nat) || (n =? 95)%nat.

(** The longest prefix of word characters, and what follows it. *)
Fixpoint span_word (s : string) : string * string :=
  match s with
  | EmptyString => (EmptyString, EmptyString)
  | String c rest =>
      if is_word_char c
      then let '(w, after) := span_word rest in (String c w, after)
      else (EmptyString, s)
  end.

(** Match the pattern at the very start of [s]: the captured name and the
    text behind the closing brace. *)
Definition match_placeholder (s : string) : option (string * string) :=
  match s with
  | String "{" rest =>
      match span_word rest with
      | (String c w, String "}" after) => Some (String c w, after)
      | _ => None
      end
  | _ => None
  end.

Lemma span_word_length s w after :
  span_word s = (w, after) -> String.length s = String.length w + String.length after.
Proof.
  revert w after. induction s as [|c s IH]; intros w after; simpl.
  - intros [= <- <-]. reflexivity.
  - destruct (is_word_char c).
    + destruct (span_word s) as [w' a'] eqn:E. intros [= <- <-].
      simpl. f_equal. apply IH. reflexivity.
    + intros [= <- <-]. reflexivity.
Qed.

Lemma match_placeholder_shorter s name after :
  match_placeholder s = Some (name, after) ->
  String.length after < String.length s.
Proof.
  unfold match_placeholder. destruct s as [|c s]; [discriminate|].
  destruct (Ascii.eqb c "{") eqn:Ec.
  2:{ destruct c as [[] [] [] [] [] [] [] []]; try discriminate. }
  apply Ascii.eqb_eq in Ec. subst c.
  destruct (span_word s) as [w a] eqn:E.
  destruct w as [|c w]; [discriminate|].
  destruct a as [|d a]; [discriminate|].
  destruct (Ascii.eqb d "}") eqn:Ed.
  2:{ destruct d as [[] [] [] [] [] [] [] []]; try discriminate. }
  apply Ascii.eqb_eq in Ed. subst d.
  intros [= <- <-]. apply span_word_length in E. simpl in *. lia.
Qed.

Definition inspect {A} (a : A) : {b : A | a = b} := exist _ a eq_refl.

(** [String.prototype.replace] with a global pattern and a function
    replacer.  The replacer returns the replacement together with the
    console lines it wrote. *)
Equations? replace_placeholders
  (replacer : string -> string -> string * list (level * message))
  (text : string) : string * list (level * message)
  by wf (String.length text) lt :=
replace_placeholders replacer EmptyString := (EmptyString, []);
replace_placeholders replacer (String c rest)
  with inspect (match_placeholder (String c rest)) := {
  | exist _ (Some (variableName, after)) Hm =>
      let '(r, logs1) := replacer ("{" +:+ variableName +:+ "}") variableName in
      let '(out, logs2) := replace_placeholders replacer after in
      (r +:+ out, logs1 ++ logs2)
  | exist _ None _ =>
      let '(out, logs) := replace_placeholders replacer rest in
      (String c out, logs) }.
Proof.
  exact (match_placeholder_shorter (String c rest) _ _ Hm).
Qed.

(** The replacer callback of [populateTextWithVariables]. *)
Definition replacer_of (variables : list (string * value)) (textKey : string)
  (placeholder variableName : string) : string * list (level * message) :=
  match assoc variableName variables with
  | Some v => (to_String v, [])
  | None => (placeholder, [(Warn, Variable_NotFound variableName textKey placeholder)])
  end.

Definition populateTextWithVariables_pure
  (text : string) (variables : list (string * value)) (textKey : string)
  : string * list (level * message) :=
  replace_placeholders (replacer_of variables textKey) text.

Definition emit_all (logs : list (level * message)) : M unit := fun w =>
  (Normal tt,
   {| activeContent := activeContent w; appConfig := appConfig w;
      memoryMap := memoryMap w; currentLanguageCode := currentLanguageCode w;
      in_frame := in_frame w; console := console w ++ logs |}).

Definition populateTextWithVariables
  (text : string) (variables : list (string * value)) (textKey : string) : M string :=
  let '(out, logs) := populateTextWithVariables_pure text variables textKey in
  emit_all logs ;; ret out.

(* ===================================================================== *)
(** ** Path Resolver: [getText], [getImage], [getVariation] *)

(** [contentId.split('.')]: never empty; the empty string gives one empty
    segment. *)
Fixpoint split_dot (s : string) : list string :=
  match s with
  | EmptyString => [EmptyString]
  | String c rest =>
      if Ascii.eqb c "." then EmptyString :: split_dot rest
      else match split_dot rest with
           | seg :: segs => String c seg :: segs
           | [] => [String c EmptyString]
           end
  end.

(** The traversal loop shared by the three accessors:
    [for (const key of keys) { if (current && typeof current === 'object'
    && key in current) current = current[key]; else <warn, return> }].
    [None] stands for leaving through the [else] branch. *)
Fixpoint walk (keys : list string) (current : value) : completion (option value) :=
  match keys with
  | [] => Normal (Some current)
  | key :: rest =>
      if truthy current && type_tag_eqb (typeof current) TObject then
        match has_property key current with
        | Throw e => Throw e
        | Normal false => Normal None
        | Normal true =>
            match get current key with
            | Throw e => Throw e
            | Normal next => walk rest next
            end
        end
      else Normal None
  end.

(** The block guarded by [window.parent && window.parent !== window]:
    add [contentId] to the id set stored under [key] (a fresh set when the
    key is new) and store the entry again with the given tag. *)
Definition record_observation (key : value) (contentId : string)
  (ty : entry_type) (var : option string) : M unit :=
  do frame <- read in_frame;
  if (frame : bool) then
    do mm <- read memoryMap;
    let idSet := match map_get key mm with Some e => ids e | None => [] end in
    set_memoryMap
      (map_set key {| ids := set_add contentId idSet; type := ty; variation := var |} mm)
  else ret tt.

Record GetTextReturn := { contentId : string; text : string }.
Definition GetVariationReturn := GetTextReturn.
Record GetImageReturn := { image_contentId : string; data : value }.

(** [variables] is [None] when the argument is omitted. *)
Definition no_variables (variables : option (list (string * value))) : bool :=
  match variables with
  | None => true
  | Some vars => (length vars =? 0)%nat
  end.

Definition getText (contentId : string) (variables : option (list (string * value)))
  : M GetTextReturn :=
  let defaultVal := {| contentId := contentId; text := "" |} in
  do content <- read activeContent;
  if negb (truthy content) then
    console_warn (GetText_NotLoaded contentId) ;; ret defaultVal
  else
    let keys := split_dot contentId in
    do found <- lift (walk keys content);
    match found with
    | None => console_warn (GetText_PathNotFound contentId) ;; ret defaultVal
    | Some (VStr current) =>
        record_observation (VStr current) contentId EText None ;;
        if no_variables variables then
          ret {| contentId := contentId; text := current |}
        else
          do t <- populateTextWithVariables current (default [] variables) contentId;
          ret {| contentId := contentId; text := t |}
    | Some current =>
        console_warn (GetText_NotAString contentId (typeof current)) ;;
        ret defaultVal
    end.

(** [{ ...o, url: key }] on a property list: overwrite in place, or append. *)
Fixpoint obj_set (key : string) (x : value) (fields : list (string * value))
  : list (string * value) :=
  match fields with
  | [] => [(key, x)]
  | (k, v) :: rest =>
      if String.eqb k key then (k, x) :: rest else (k, v) :: obj_set key x rest
  end.

Definition empty_image : value :=
  VObj [("url", VStr ""); ("altText", VStr ""); ("contentstorage_type", VStr "image")].

Definition cdn_prefix : string := "https://cdn.contentstorage.app/".

Definition getImage (contentId : string) : M GetImageReturn :=
  let defaultVal := {| image_contentId := contentId; data := empty_image |} in
  do content <- read activeContent;
  if negb (truthy content) then
    console_warn (GetImage_NotLoaded contentId) ;;
    ret {| image_contentId := contentId; data := empty_image |}
  else
    let keys := split_dot contentId in
    do found <- lift (walk keys content);
    match found with
    | None => console_warn (GetImage_PathNotFound contentId) ;; ret defaultVal
    | Some current =>
        let invalid :=
          console_warn (GetImage_NotAnImage contentId current) ;; ret defaultVal in
        if truthy current && type_tag_eqb (typeof current) TObject then
          do ty <- lift (get current "contentstorage_type");
          match ty with
          | VStr tag =>
              if String.eqb tag "image" then
                do url <- lift (get current "url");
                match url, current with
                | VStr u, VObj fields =>
                    let key := cdn_prefix +:+ u in
                    record_observation (VStr key) contentId EImage None ;;
                    console_log (GetImage_Url (VStr u)) ;;
                    ret {| image_contentId := contentId;
                           data := VObj (obj_set "url" (VStr key) fields) |}
                | _, _ => invalid
                end
              else invalid
          | _ => invalid
          end
        else invalid
    end.

(** The part of [getVariation] after the block for the requested key: the
    ['default'] fallback and the final warning.  [current] is the
    variation object, [vdata] its [data]. *)
Definition getVariation_fallback (contentId : string) (variationKey : option string)
  (current vdata : value) : M GetVariationReturn :=
  let defaultVal := {| contentId := contentId; text := "" |} in
  let neither :=
    console_warn (GetVariation_NeitherFound variationKey contentId) ;;
    ret defaultVal in
  do has_default <- lift (has_property "default" vdata);
  match has_default, variationKey with
  | true, Some vk =>                      (* typeof variationKey === 'string' *)
      do dflt <- lift (get vdata "default");
      match dflt with
      | VStr d =>
          (if negb (String.eqb vk "") && negb (String.eqb vk "default")
           then console_warn (GetVariation_ReturningDefault vk contentId)
           else ret tt) ;;
          record_observation current contentId EVariation (Some "default") ;;
          ret {| contentId := contentId; text := d |}
      | other =>
          console_warn (GetVariation_DefaultNotAString contentId (typeof other)) ;;
          neither
      end
  | _, _ => neither
  end.

(** [variationKey] is [None] when the argument is omitted. *)
Definition getVariation (contentId : string) (variationKey : option string)
  (variables : option (list (string * value))) : M GetVariationReturn :=
  let defaultVal := {| contentId := contentId; text := "" |} in
  do content <- read activeContent;
  if negb (truthy content) then
    console_warn (GetVariation_NotLoaded contentId variationKey) ;; ret defaultVal
  else
    let keys := split_dot contentId in
    do found <- lift (walk keys content);
    match found with
    | None => console_warn (GetVariation_PathNotFound contentId) ;; ret defaultVal
    | Some current =>
        let invalid :=
          console_warn (GetVariation_NotAVariation contentId current) ;;
          ret defaultVal in
        if truthy current && type_tag_eqb (typeof current) TObject then
          do ty <- lift (get current "contentstorage_type");
          match ty with
          | VStr tag =>
              if String.eqb tag "variation" then
                do vdata <- lift (get current "data");
                match vdata with
                | VArr _ | VObj _ =>     (* typeof data === 'object', not null *)
                    do requested <-
                      match variationKey with
                      | Some vk =>
                          if negb (String.eqb vk "")
                          then lift (has_property vk vdata) else ret false
                      | None => ret false
                      end;
                    match (requested : bool), variationKey with
                    | true, Some vk =>
                        do chosen <- lift (get vdata vk);
                        match chosen with
                        | VStr c =>
                            record_observation (VStr c) contentId EVariation (Some vk) ;;
                            if no_variables variables then
                              ret {| contentId := contentId; text := c |}
                            else
                              do t <- populateTextWithVariables
                                        c (default [] variables) contentId;
                              ret {| contentId := contentId; text := t |}
                        | other =>
                            console_warn
                              (GetVariation_ValueNotAString vk contentId (typeof other)) ;;
                            getVariation_fallback contentId variationKey current vdata
                        end
                    | _, _ =>
                        getVariation_fallback contentId variationKey current vdata
                    end
                | _ => invalid
                end
              else invalid
          | _ => invalid
          end
        else invalid
    end.

(* ===================================================================== *)
(** ** Fetch Coordinator: [fetchContent]

    The coordinator runs on a single-threaded event loop.  Its state is
    the module state above together with the two registries of
    [fetchContent.ts], the host's armed timers, the network calls that
    have been issued and await their outcome, and the promises handed to
    callers.  An event is a call of [fetchContent], the firing of an armed
    timer, or the arrival of the outcome of a network call. *)

(** What the timer callback of one draft invocation closes over: the
    registry key, the target, and the [resolve]/[reject] pair of the
    promise it returned. *)
Record Closure := {
  requestKey : string;
  fileUrl : url;
  languageToFetch : value;
  promise : nat;
}.

(** A network call that has been issued and whose [await] has not
    resumed.  A draft call carries a cancel token; [cancelled] records
    that [cancel()] was called on its source. *)
Inductive Call :=
| DraftCall (closure : Closure) (cancelled : bool)
| CdnCall (target : url) (language usePendingChangesToFetch : value) (p : nat).

Definition call_promise (c : Call) : nat :=
  match c with
  | DraftCall closure _ => promise closure
  | CdnCall _ _ _ p => p
  end.

Inductive Settlement := Pending | Resolved | Rejected (e : exn).

Record Coordinator := {
  world : World;
  debounceTimers : gmap string nat;      (* requestKey to timer handle *)
  cancelTokenSources : gmap string nat;  (* requestKey to cancel token source *)
  timers : gmap nat Closure;             (* armed timers of the host *)
  calls : gmap nat Call;                 (* issued network calls, by token *)
  promises : gmap nat Settlement;
  network : list (nat * url);            (* calls issued so far: promise, target *)
  fresh : nat;                           (* next unused handle *)
}.

Definition DEBOUNCE_MS : nat := 200.

(** Handles start at 1, as timer ids do: a stored handle is truthy, which
    is what [if (existingTimer)] and [if (existingCancelSource)] test. *)
Definition initial_coordinator (frame : bool) : Coordinator :=
  {| world := initial_world frame; debounceTimers := ∅; cancelTokenSources := ∅;
     timers := ∅; calls := ∅; promises := ∅; network := []; fresh := 1 |}.

Definition with_world (w : World) (c : Coordinator) : Coordinator :=
  {| world := w; debounceTimers := debounceTimers c;
     cancelTokenSources := cancelTokenSources c; timers := timers c;
     calls := calls c; promises := promises c; network := network c;
     fresh := fresh c |}.

Definition with_debounceTimers (m : gmap string nat) (c : Coordinator) : Coordinator :=
  {| world := world c; debounceTimers := m;
     cancelTokenSources := cancelTokenSources c; timers := timers c;
     calls := calls c; promises := promises c; network := network c;
     fresh := fresh c |}.

Definition with_cancelTokenSources (m : gmap string nat) (c : Coordinator) : Coordinator :=
  {| world := world c; debounceTimers := debounceTimers c;
     cancelTokenSources := m; timers := timers c;
     calls := calls c; promises := promises c; network := network c;
     fresh := fresh c |}.

Definition with_timers (m : gmap nat Closure) (c : Coordinator) : Coordinator :=
  {| world := world c; debounceTimers := debounceTimers c;
     cancelTokenSources := cancelTokenSources c; timers := m;
     calls := calls c; promises := promises c; network := network c;
     fresh := fresh c |}.

Definition with_calls (m : gmap nat Call) (c : Coordinator) : Coordinator :=
  {| world := world c; debounceTimers := debounceTimers c;
     cancelTokenSources := cancelTokenSources c; timers := timers c;
     calls := m; promises := promises c; network := network c;
     fresh := fresh c |}.

Definition with_promises (m : gmap nat Settlement) (c : Coordinator) : Coordinator :=
  {| world := world c; debounceTimers := debounceTimers c;
     cancelTokenSources := cancelTokenSources c; timers := timers c;
     calls := calls c; promises := m; network := network c;
     fresh := fresh c |}.

(** Take the next unused handle. *)
Definition allocate (c : Coordinator) : nat * Coordinator :=
  (fresh c,
   {| world := world c; debounceTimers := debounceTimers c;
      cancelTokenSources := cancelTokenSources c; timers := timers c;
      calls := calls c; promises := promises c; network := network c;
      fresh := S (fresh c) |}).

(** [axios.get(fileUrl, requestConfig)] up to its [await]. *)
Definition issue (token : nat) (call : Call) (target : url) (c : Coordinator)
  : Coordinator :=
  {| world := world c; debounceTimers := debounceTimers c;
     cancelTokenSources := cancelTokenSources c; timers := timers c;
     calls := <[token := call]> (calls c); promises := promises c;
     network := network c ++ [(call_promise call, target)];
     fresh := fresh c |}.

(** [resolve()] and [reject(error)]: only a pending promise changes. *)
Definition settle (p : nat) (s : Settlement) (c : Coordinator) : Coordinator :=
  match promises c !! p with
  | Some Pending => with_promises (<[p := s]> (promises c)) c
  | _ => c
  end.

(** Run a statement of the content-management module inside the
    coordinator. *)
Definition in_world {A} (m : M A) (c : Coordinator) : completion A * Coordinator :=
  let '(r, w) := m (world c) in (r, with_world w c).

(** [a || b] and [v?.key]. *)
Definition js_or (a b : value) : value := if truthy a then a else b.

Definition opt_chain (v : value) (key : string) : value :=
  match v with
  | VUndefined | VNull => VUndefined
  | _ => match get v key with Normal x => x | Throw _ => VUndefined end
  end.

(** [existingCancelSource.cancel(...)]: mark the call still awaiting its
    outcome under that token. *)
Definition cancel (token : nat) (c : Coordinator) : Coordinator :=
  match calls c !! token with
  | Some (DraftCall closure _) =>
      with_calls (<[token := DraftCall closure true]> (calls c)) c
  | _ => c
  end.

(** [`${languageToFetch}:${effectiveContentKey}`]. *)
Definition request_key (language effectiveContentKey : value) : string :=
  to_String language +:+ ":" +:+ to_String effectiveContentKey.

(** The draft branch of [fetchContent] up to the returned promise [p]. *)
Definition schedule_draft (p : nat) (language effectiveContentKey : value)
  (c : Coordinator) : Coordinator :=
  let target := DraftUrl (to_String language) in
  let key := request_key language effectiveContentKey in
  let c :=
    match cancelTokenSources c !! key with
    | Some existingCancelSource =>
        with_cancelTokenSources (delete key (cancelTokenSources c))
          (cancel existingCancelSource c)
    | None => c
    end in
  let c :=
    match debounceTimers c !! key with
    | Some existingTimer =>              (* clearTimeout(existingTimer) *)
        with_debounceTimers (delete key (debounceTimers c))
          (with_timers (delete existingTimer (timers c)) c)
    | None => c
    end in
  let '(timer, c) := allocate c in       (* setTimeout(callback, DEBOUNCE_MS) *)
  let closure := {| requestKey := key; fileUrl := target;
                    languageToFetch := language; promise := p |} in
  with_debounceTimers (<[key := timer]> (debounceTimers c))
    (with_timers (<[timer := closure]> (timers c)) c).

(** [fetchContent(language, { withPendingChanges, contentKey })] up to
    its first suspension.  An exception thrown in an [async] function
    rejects the promise it returns. *)
Definition fetchContent (language withPendingChanges contentKey : value)
  (c : Coordinator) : nat * Coordinator :=
  let '(p, c) := allocate c in
  let c := with_promises (<[p := Pending]> (promises c)) c in
  let config := appConfig (world c) in
  let language_to_fetch := js_or language (opt_chain (opt_chain config "languageCodes") "0") in
  let usePendingChangesToFetch :=
    js_or withPendingChanges (opt_chain config "pendingChanges") in
  let '(_, c) := in_world (console_log (Fetch_Starting language)) c in
  if negb (truthy language_to_fetch) then (p, settle p (Rejected NoLanguageFound) c)
  else if negb (truthy config) then (p, settle p (Rejected NoAppConfigFound) c)
  else
    let effectiveContentKey := js_or contentKey (opt_chain config "contentKey") in
    if truthy usePendingChangesToFetch then
      if negb (truthy effectiveContentKey)
      then (p, settle p (Rejected NoContentKeyFound) c)
      else (p, schedule_draft p language_to_fetch effectiveContentKey c)
    else
      let target := CdnUrl (to_String effectiveContentKey) (to_String language_to_fetch) in
      let '(token, c) := allocate c in
      (p, issue token (CdnCall target language_to_fetch usePendingChangesToFetch p) target c).

(** The timer callback up to its [await]. *)
Definition timer_callback (closure : Closure) (c : Coordinator) : Coordinator :=
  let key := requestKey closure in
  let c := with_debounceTimers (delete key (debounceTimers c)) c in
  let '(cancelTokenSource, c) := allocate c in
  let c := with_cancelTokenSources
             (<[key := cancelTokenSource]> (cancelTokenSources c)) c in
  issue cancelTokenSource (DraftCall closure false) (fileUrl closure) c.

(** The outcome of a network call: a response with its body, or a
    failure of the transport. *)
Inductive outcome :=
| Response (body : value)
| Failure (status responseData : value).

(** The statements of the [try] block after the [await], draft path. *)
Definition draft_try_block (language : value) (body : value) : M unit :=
  do jsonData <-
    (if truthy body && type_tag_eqb (typeof body) TObject then
       do enveloped <- lift (has_property "data" body);
       if (enveloped : bool) then lift (get body "data") else ret body
     else ret body);
  match jsonData with
  | VUndefined | VNull => throw NoDataReceived
  | _ =>
      if negb (type_tag_eqb (typeof jsonData) TObject)
      then throw (ExpectedJsonObject (typeof jsonData))
      else
        console_log (Fetch_ReceivedJson language) ;;
        setContentLanguage language jsonData
  end.

(** The same on the CDN path, where the envelope is only opened when
    [usePendingChangesToFetch] holds. *)
Definition cdn_try_block (language usePendingChangesToFetch : value) (body : value)
  : M unit :=
  do jsonData <-
    (if truthy usePendingChangesToFetch && truthy body
        && type_tag_eqb (typeof body) TObject then
       do enveloped <- lift (has_property "data" body);
       if (enveloped : bool) then lift (get body "data") else ret body
     else ret body);
  match jsonData with
  | VUndefined | VNull => throw NoDataReceived
  | _ =>
      if negb (type_tag_eqb (typeof jsonData) TObject)
      then throw (ExpectedJsonObject (typeof jsonData))
      else
        console_log (Fetch_ReceivedJson language) ;;
        setContentLanguage language jsonData
  end.

(** What the [await] yields: the body, or the exception it raises. *)
Definition awaited (cancelled : bool) (o : outcome) : completion value :=
  if cancelled then Throw AxiosCancel
  else match o with
       | Response body => Normal body
       | Failure status responseData => Throw (AxiosError status responseData)
       end.

(** The console lines both [catch] blocks write for an error. *)
Definition log_fetch_error (language : value) (target : url) (error : exn) : M unit :=
  console_error (Fetch_ErrorProcessing language target) ;;
  match error with
  | AxiosError status responseData =>       (* axios.isAxiosError(error) *)
      console_error (Fetch_ErrorStatus status) ;;
      console_error
        (Fetch_ErrorResponseData
           (if truthy responseData then Some responseData else None)) ;;
      console_error (Fetch_ErrorMessage error)
  | _ => console_error (Fetch_ErrorDetail error)
  end.

(** The rest of the timer callback once the call has an outcome. *)
Definition draft_continuation (closure : Closure) (cancelled : bool) (o : outcome)
  (c : Coordinator) : Coordinator :=
  let key := requestKey closure in
  let language := languageToFetch closure in
  let '(r, c) :=
    in_world (do body <- lift (awaited cancelled o);
              draft_try_block language body) c in
  match r with
  | Normal _ =>
      settle (promise closure) Resolved
        (with_cancelTokenSources (delete key (cancelTokenSources c)) c)
  | Throw error =>
      let c := with_cancelTokenSources (delete key (cancelTokenSources c)) c in
      match error with
      | AxiosCancel =>
          let '(_, c) := in_world (console_log (Fetch_RequestCancelled language)) c in
          settle (promise closure) Resolved c
      | _ =>
          let '(_, c) :=
            in_world (log_fetch_error language (fileUrl closure) error) c in
          settle (promise closure) (Rejected error) c
      end
  end.

(** The rest of the CDN path: errors are written to the console and the
    function returns, so its promise resolves. *)
Definition cdn_continuation (target : url) (language usePendingChangesToFetch : value)
  (p : nat) (o : outcome) (c : Coordinator) : Coordinator :=
  let '(r, c) :=
    in_world (try_catch
                (do body <- lift (awaited false o);
                 cdn_try_block language usePendingChangesToFetch body)
                (fun error => log_fetch_error language target error)) c in
  settle p Resolved c.

(** The synchronous entry points of the content-management module, as
    application code may call them between two turns. *)
Inductive api_call :=
| CallInitContentStorage (config : value)
| CallSetContentLanguage (languageCode contentJson : value)
| CallGetText (contentId : string) (variables : option (list (string * value)))
| CallGetImage (contentId : string)
| CallGetVariation (contentId : string) (variationKey : option string)
    (variables : option (list (string * value))).

Definition api_run (a : api_call) : M unit :=
  match a with
  | CallInitContentStorage config => initContentStorage config
  | CallSetContentLanguage languageCode contentJson =>
      setContentLanguage languageCode contentJson
  | CallGetText contentId variables => getText contentId variables ;; ret tt
  | CallGetImage contentId => getImage contentId ;; ret tt
  | CallGetVariation contentId variationKey variables =>
      getVariation contentId variationKey variables ;; ret tt
  end.

Inductive event :=
| Calls (a : api_call)
| Invoke (language withPendingChanges contentKey : value)
| TimerFires (timer : nat)
| OutcomeArrives (token : nat) (o : outcome).

(** One turn of the event loop.  A timer that is not armed does not
    fire, and a call that is not awaited has no outcome to deliver. *)
Definition step (e : event) (c : Coordinator) : Coordinator :=
  match e with
  | Calls a => snd (in_world (api_run a) c)
  | Invoke language withPendingChanges contentKey =>
      snd (fetchContent language withPendingChanges contentKey c)
  | TimerFires timer =>
      match timers c !! timer with
      | Some closure =>
          timer_callback closure (with_timers (delete timer (timers c)) c)
      | None => c
      end
  | OutcomeArrives token o =>
      match calls c !! token with
      | Some (DraftCall closure cancelled) =>
          draft_continuation closure cancelled o
            (with_calls (delete token (calls c)) c)
      | Some (CdnCall target language usePending p) =>
          cdn_continuation target language usePending p o
            (with_calls (delete token (calls c)) c)
      | None => c
      end
  end.

Definition run_events (es : list event) (c : Coordinator) : Coordinator :=
  fold_left (fun c e => step e c) es c.

(** The states the coordinator can be in: those an event sequence leads
    to from a freshly loaded page. *)
Definition reachable (c : Coordinator) : Prop :=
  exists frame es, c = run_events es (initial_coordinator frame).

(* ===================================================================== *)
(** * Specification-side notions and sample data *)

(** A page inside the editor frame whose store holds [tree]. *)
Definition with_content (tree : value) : World :=
  {| activeContent := tree; appConfig := VNull; memoryMap := [];
     currentLanguageCode := VStr "EN"; in_frame := true; console := [] |}.

(** A content tree with one leaf of each kind, and an array. *)
Definition sample_tree : value :=
  VObj [("HomePage",
         VObj [("title", VStr "Welcome");
               ("greeting", VStr "Hello, {name}!");
               ("heroImage", VObj [("contentstorage_type", VStr "image");
                                   ("url", VStr "x.png"); ("altText", VStr "alt")]);
               ("ctaButton", VObj [("contentstorage_type", VStr "variation");
                                   ("data", VObj [("default", VStr "Sign Up, {name}");
                                                  ("variantB", VStr "Go, {name}")])]);
               ("items", VArr [VStr "first"; VStr "second"])])].

(** The initialization contract in the specification's words: a non-empty
    [contentKey] string and a non-empty sequence of language codes. *)
Definition meets_init_contract (config : value) : bool :=
  match config with
  | VObj fields =>
      match assoc "contentKey" fields, assoc "languageCodes" fields with
      | Some (VStr key), Some (VArr codes) =>
          negb (String.eqb key "") && negb (length codes =? 0)%nat
      | _, _ => false
      end
  | _ => false
  end.

(** A configuration with a content key and no language code. *)
Definition empty_languageCodes_config : value :=
  VObj [("contentKey", VStr "my-key"); ("languageCodes", VArr [])].

(** What the specification calls a path present in the tree: descend key
    by key through nested containers.  An object yields the value bound to
    the key; an array yields an element by canonical index, or its length. *)
Inductive child : value -> string -> value -> Prop :=
| child_field fields key v :
    assoc key fields = Some v -> child (VObj fields) key v
| child_elem elems key i v :
    array_index key = Some i -> elems !! i = Some v -> child (VArr elems) key v
| child_length elems :
    child (VArr elems) "length" (VNum (Z.of_nat (length elems))).

Inductive resolves : value -> list string -> value -> Prop :=
| resolves_here v : resolves v [] v
| resolves_step v key next rest leaf :
    child v key next -> resolves next rest leaf -> resolves v (key :: rest) leaf.

(** Image Node and Variation Node, as the accessors recognise them. *)
Definition is_image_node (v : value) : bool :=
  match v with
  | VObj fields =>
      match assoc "contentstorage_type" fields, assoc "url" fields with
      | Some (VStr tag), Some (VStr _) => String.eqb tag "image"
      | _, _ => false
      end
  | _ => false
  end.

Definition is_variation_node (v : value) : bool :=
  match v with
  | VObj fields =>
      match assoc "contentstorage_type" fields, assoc "data" fields with
      | Some (VStr tag), Some (VObj _ | VArr _) => String.eqb tag "variation"
      | _, _ => false
      end
  | _ => false
  end.

(** The world after one more console warning. *)
Definition warned (w : World) (msg : message) : World :=
  {| activeContent := activeContent w; appConfig := appConfig w;
     memoryMap := memoryMap w; currentLanguageCode := currentLanguageCode w;
     in_frame := in_frame w; console := console w ++ [(Warn, msg)] |}.

(** The empty results of the accessors. *)
Definition empty_text (path : string) : GetTextReturn :=
  {| contentId := path; text := "" |}.
Definition empty_image_result (path : string) : GetImageReturn :=
  {| image_contentId := path; data := empty_image |}.

(** Variation nodes: one with a default only, one whose strings carry a
    placeholder. *)
Definition default_only_tree : value :=
  VObj [("A", VObj [("contentstorage_type", VStr "variation");
                    ("data", VObj [("default", VStr "D")])])].

Definition greeting_variation_tree : value :=
  VObj [("A", VObj [("contentstorage_type", VStr "variation");
                    ("data", VObj [("default", VStr "Hi {name}");
                                   ("b", VStr "Hi {name}")])])].

(** An identifier is a non-empty run of word characters. *)
Fixpoint all_word (s : string) : bool :=
  match s with
  | EmptyString => true
  | String c rest => is_word_char c && all_word rest
  end.

Definition is_identifier (s : string) : bool :=
  negb (String.eqb s "") && all_word s.

Definition braced (name : string) : string := "{" +:+ name +:+ "}".

(** The substitution the specification asks for on one placeholder. *)
Definition substituted (variables : list (string * value)) (name : string) : string :=
  match assoc name variables with
  | Some v => to_String v
  | None => braced name
  end.

(** The text starts with an occurrence of the pattern. *)
Definition starts_with_placeholder (text : string) : Prop :=
  exists name after, is_identifier name = true /\ text = braced name +:+ after.

(** Replacing every occurrence, left to right: an occurrence at the front
    is substituted and the scan goes on behind it; any other character is
    kept. *)
Inductive interpolates (variables : list (string * value)) : string -> string -> Prop :=
| interpolates_end : interpolates variables "" ""
| interpolates_placeholder name after out :
    is_identifier name = true ->
    interpolates variables after out ->
    interpolates variables (braced name +:+ after) (substituted variables name +:+ out)
| interpolates_char c rest out :
    ~ starts_with_placeholder (String c rest) ->
    interpolates variables rest out ->
    interpolates variables (String c rest) (String c out).

(** A computation that returns normally from every world. *)
Definition completes {A} (c : M A) : Prop :=
  forall w0, exists r w', c w0 = (Normal r, w').

(** Two application configurations: one reading drafts, one reading the
    CDN. *)
Definition draft_config : value :=
  VObj [("contentKey", VStr "my-key");
        ("languageCodes", VArr [VStr "EN"; VStr "FR"]);
        ("pendingChanges", VBool true)].

Definition cdn_config : value :=
  VObj [("contentKey", VStr "my-key");
        ("languageCodes", VArr [VStr "EN"; VStr "FR"])].

(** The coordinator after [initContentStorage(config)] on a fresh page. *)
Definition configured (config : value) : Coordinator :=
  step (Calls (CallInitContentStorage config)) (initial_coordinator false).

(** Target resolution in the specification's words: the language is the
    explicit argument, else the first configured code; the mode is the
    explicit override, else the configured default; the content key is
    the explicit override, else the configured key.  The result is the
    registry key when the call goes down the draft path. *)
Definition draft_request_key (language withPendingChanges contentKey : value)
  (c : Coordinator) : option string :=
  let config := appConfig (world c) in
  let l := js_or language (opt_chain (opt_chain config "languageCodes") "0") in
  let mode := js_or withPendingChanges (opt_chain config "pendingChanges") in
  let k := js_or contentKey (opt_chain config "contentKey") in
  if truthy l && truthy config && truthy mode && truthy k
  then Some (request_key l k) else None.

(** No armed timer, awaited call or issued call belongs to promise [p]. *)
Definition noref (p : nat) (c : Coordinator) : Prop :=
  map_Forall (fun _ closure => promise closure <> p) (timers c)
  /\ map_Forall (fun _ call => call_promise call <> p) (calls c)
  /\ Forall (fun issued => fst issued <> p) (network c).

(** Nothing in the coordinator can settle promise [p] any more: it is
    pending and nothing belongs to it. *)
Definition unreferenced (p : nat) (c : Coordinator) : Prop :=
  promises c !! p = Some Pending /\ p < fresh c /\ noref p c.

(** Handles not yet handed out are not in use. *)
Definition handles_fresh (c : Coordinator) : Prop :=
  forall p, fresh c <= p -> promises c !! p = None /\ noref p c.

(** Promise [p] is pending and can only be settled by the callback of
    timer [t], which is the timer registered under [key]. *)
Definition armed_only_by (p t : nat) (key : string) (c : Coordinator) : Prop :=
  promises c !! p = Some Pending
  /\ p < fresh c
  /\ debounceTimers c !! key = Some t
  /\ map_Forall (fun h closure => promise closure = p -> h = t) (timers c)
  /\ map_Forall (fun _ call => call_promise call <> p) (calls c)
  /\ Forall (fun issued => fst issued <> p) (network c).

(** Two calls of [fetchContent("EN", { withPendingChanges: true })] in a
    row, the second before the timer of the first has fired.  The first
    returns promise 1 and arms timer 2, the second returns promise 3 and
    arms timer 4. *)
Definition two_draft_invocations : Coordinator :=
  run_events [Invoke (VStr "EN") (VBool true) VUndefined;
              Invoke (VStr "EN") (VBool true) VUndefined]
             (configured cdn_config).

Definition is_error_line (line : level * message) : bool :=
  match fst line with Error => true | _ => false end.

(** The state in which [schedule_draft] arms its timer: the in-flight
    call of the key is cancelled and the key's timer cleared. *)
Definition superseded (key : string) (c : Coordinator) : Coordinator :=
  let c :=
    match cancelTokenSources c !! key with
    | Some existingCancelSource =>
        with_cancelTokenSources (delete key (cancelTokenSources c))
          (cancel existingCancelSource c)
    | None => c
    end in
  match debounceTimers c !! key with
  | Some existingTimer =>
      with_debounceTimers (delete key (debounceTimers c))
        (with_timers (delete existingTimer (timers c)) c)
  | None => c
  end.

(** The state in which [fetchContent] takes its decisions: the promise
    is allocated and the starting line written. *)
Definition entered (language : value) (c : Coordinator) : Coordinator :=
  snd (in_world (console_log (Fetch_Starting language))
         (with_promises (<[fresh c := Pending]> (promises c)) (snd (allocate c)))).

(* ===================================================================== *)
(** * Further notions used by the properties beyond the listed claims *)

(** One instrumentation map extends another: every key it had is still
    there, and the ids recorded under it are still recorded. *)
Definition memory_le (m m' : list (value * memory_entry)) : Prop :=
  forall key e, map_get key m = Some e ->
    exists e', map_get key m' = Some e' /\ (forall id, id ∈ ids e -> id ∈ ids e').

(** What an accessor may do to the world: write console lines and extend
    the instrumentation map, the latter only inside the editor frame. *)
Definition observes_only {A} (c : M A) : Prop :=
  forall w,
    let w' := snd (c w) in
    activeContent w' = activeContent w
    /\ appConfig w' = appConfig w
    /\ currentLanguageCode w' = currentLanguageCode w
    /\ in_frame w' = in_frame w
    /\ (exists lines, console w' = console w ++ lines)
    /\ (in_frame w = false -> memoryMap w' = memoryMap w)
    /\ memory_le (memoryMap w) (memoryMap w').

(** The text has no opening brace. *)
Fixpoint no_open_brace (s : string) : bool :=
  match s with
  | EmptyString => true
  | String c rest => negb (Ascii.eqb c "{") && no_open_brace rest
  end.

(** The segment has no dot. *)
Fixpoint dot_free (s : string) : bool :=
  match s with
  | EmptyString => true
  | String c rest => negb (Ascii.eqb c ".") && dot_free rest
  end.

(** [segments.join('.')]. *)
Fixpoint join_dot (segments : list string) : string :=
  match segments with
  | [] => ""
  | [seg] => seg
  | seg :: rest => seg +:+ "." +:+ join_dot rest
  end.

(** The three values [fetchContent] resolves before it decides: the
    language, the mode and the content key, each an explicit argument or
    else the configured one. *)
Definition resolved_language (language : value) (c : Coordinator) : value :=
  js_or language (opt_chain (opt_chain (appConfig (world c)) "languageCodes") "0").

Definition resolved_mode (withPendingChanges : value) (c : Coordinator) : value :=
  js_or withPendingChanges (opt_chain (appConfig (world c)) "pendingChanges").

Definition resolved_content_key (contentKey : value) (c : Coordinator) : value :=
  js_or contentKey (opt_chain (appConfig (world c)) "contentKey").

(** The closure a draft invocation hands to [setTimeout]. *)
Definition draft_closure (p : nat) (language contentKey : value) : Closure :=
  {| requestKey := request_key language contentKey;
     fileUrl := DraftUrl (to_String language);
     languageToFetch := language; promise := p |}.

(** The body once the draft envelope is opened: the [data] field of an
    object that has one, else the body itself. *)
Definition envelope_payload (body : value) : value :=
  match body with
  | VObj fields => default body (assoc "data" fields)
  | _ => body
  end.

(** A non-null value of type object: a plain object or an array. *)
Definition is_container (v : value) : bool :=
  match v with VObj _ | VArr _ => true | _ => false end.

(** The error a draft call ends with, if any: the transport failure, or
    the complaint about the shape of what the envelope holds. *)
Definition draft_outcome_error (o : outcome) : option exn :=
  match o with
  | Failure status responseData => Some (AxiosError status responseData)
  | Response body =>
      match envelope_payload body with
      | VNull | VUndefined => Some NoDataReceived
      | VObj _ | VArr _ => None
      | other => Some (ExpectedJsonObject (typeof other))
      end
  end.

(** The world after a response has been stored for [language]. *)
Definition stored (language payload : value) (w : World) : World :=
  {| activeContent := payload; appConfig := appConfig w;
     memoryMap := memoryMap w; currentLanguageCode := language;
     in_frame := in_frame w;
     console := console w ++ [(Log, Fetch_ReceivedJson language);
                              (Log, ContentLoaded)] |}.

(** Every armed timer is the one registered under its request key. *)
Definition timers_registered (c : Coordinator) : Prop :=
  map_Forall (fun h closure => debounceTimers c !! requestKey closure = Some h)
             (timers c).

(** A configuration [initContentStorage] lets through. *)
Definition config_ok (config : value) : bool :=
  match config with
  | VObj fields =>
      truthy (default VUndefined (assoc "contentKey" fields))
      && isArray (default VUndefined (assoc "languageCodes" fields))
  | _ => false
  end.

(** The two module variables hold what their types say: the active
    content is [null] or an object, the configuration is [null] or one
    that passed the checks of [initContentStorage]. *)
Definition store_typed (w : World) : Prop :=
  (activeContent w = VNull \/ is_container (activeContent w) = true)
  /\ (appConfig w = VNull \/ config_ok (appConfig w) = true).

(** A statement that keeps a property of the world. *)
Definition keeps (P : World -> Prop) {A} (m : M A) : Prop :=
  forall w, P w -> P (snd (m w)).

(* ===================================================================== *)
(** * Properties *)

(** ** Sample runs *)

Example populate_hello :
  populateTextWithVariables_pure "Hello, {name}!" [("name", VStr "John")] "k"
  = ("Hello, John!", []).
Proof. reflexivity. Qed.

Example populate_missing :
  fst (populateTextWithVariables_pure "Hi {x} {y_1} {} {a b} {{n}}" [("n", VNum (-42))] "k")
  = "Hi {x} {y_1} {} {a b} {-42}".
Proof. vm_compute. reflexivity. Qed.

Example getText_title :
  fst (getText "HomePage.title" None (with_content sample_tree))
  = Normal {| contentId := "HomePage.title"; text := "Welcome" |}.
Proof. reflexivity. Qed.

Example getText_greeting :
  fst (getText "HomePage.greeting" (Some [("name", VStr "John")]) (with_content sample_tree))
  = Normal {| contentId := "HomePage.greeting"; text := "Hello, John!" |}.
Proof. reflexivity. Qed.

Example getText_array_item :
  fst (getText "HomePage.items.1" None (with_content sample_tree))
  = Normal {| contentId := "HomePage.items.1"; text := "second" |}.
Proof. reflexivity. Qed.

Example getImage_hero :
  fst (getImage "HomePage.heroImage" (with_content sample_tree))
  = Normal {| image_contentId := "HomePage.heroImage";
              data := VObj [("contentstorage_type", VStr "image");
                            ("url", VStr "https://cdn.contentstorage.app/x.png");
                            ("altText", VStr "alt")] |}.
Proof. reflexivity. Qed.

Example getVariation_variantB :
  fst (getVariation "HomePage.ctaButton" (Some "variantB") (Some [("name", VStr "Al")])
         (with_content sample_tree))
  = Normal {| contentId := "HomePage.ctaButton"; text := "Go, Al" |}.
Proof. reflexivity. Qed.

(** ** Content Store *)

Lemma object_is_valid (v : value) :
  v <> VNull -> typeof v = TObject ->
  negb (truthy v) || negb (type_tag_eqb (typeof v) TObject) = false.
Proof. destruct v; simpl; intros Hn Ht; try discriminate; congruence. Qed.

Lemma non_object_is_invalid (v : value) :
  v = VNull \/ v = VUndefined \/ typeof v <> TObject ->
  negb (truthy v) || negb (type_tag_eqb (typeof v) TObject) = true.
Proof.
  intros [-> | [-> | Ht]]; [reflexivity | reflexivity |].
  destruct v; simpl in *; try reflexivity; try congruence;
    rewrite orb_true_r; reflexivity.
Qed.

(** The [try] block always completes, whatever the arguments. *)
Lemma setContentLanguage_body_completes languageCode contentJson w :
  setContentLanguage_body languageCode contentJson w =
  (Normal tt,
   {| activeContent := contentJson; appConfig := appConfig w;
      memoryMap := memoryMap w; currentLanguageCode := languageCode;
      in_frame := in_frame w; console := console w ++ [(Log, ContentLoaded)] |}).
Proof. reflexivity. Qed.

(** C8. [setContentLanguage] checks that [contentJson] is a non-null
    object.  On [null], [undefined] or a value whose type is not object it
    throws and the world (active content and language included) is as
    before; on a non-null object it completes, the active content is the
    supplied object and the recorded language the supplied code. *)
Theorem setContentLanguage_validates (languageCode contentJson : value) (w : World) :
  (contentJson = VNull \/ contentJson = VUndefined \/ typeof contentJson <> TObject ->
   setContentLanguage languageCode contentJson w = (Throw InvalidContentJson, w))
  /\
  (contentJson <> VNull -> typeof contentJson = TObject ->
   exists w', setContentLanguage languageCode contentJson w = (Normal tt, w')
     /\ activeContent w' = contentJson
     /\ currentLanguageCode w' = languageCode).
Proof.
  split.
  - intros Hbad. unfold setContentLanguage.
    rewrite (non_object_is_invalid _ Hbad). reflexivity.
  - intros Hn Ht. unfold setContentLanguage.
    rewrite (object_is_valid _ Hn Ht). unfold try_catch.
    rewrite setContentLanguage_body_completes.
    eexists. split; [reflexivity|]. split; reflexivity.
Qed.

Lemma setContentLanguage_validates_witness :
  setContentLanguage (VStr "EN") (VStr "not an object") (with_content sample_tree)
    = (Throw InvalidContentJson, with_content sample_tree)
  /\ exists w', setContentLanguage (VStr "FR") sample_tree (initial_world false)
                  = (Normal tt, w')
       /\ activeContent w' = sample_tree /\ currentLanguageCode w' = VStr "FR".
Proof.
  split.
  - apply (proj1 (setContentLanguage_validates _ _ _)).
    right; right. discriminate.
  - apply (proj2 (setContentLanguage_validates _ _ _)).
    + discriminate.
    + reflexivity.
Defined.

(** C10. Once the validation of [setContentLanguage] has passed, the
    guarded body runs to its end: the call completes, the active content is
    the supplied object (so it is not null), the console gains the
    "Content loaded" line and nothing else, and the [catch] handler, which
    would reset the store, is not entered. *)
Theorem setContentLanguage_catch_unreachable (languageCode contentJson : value) (w : World) :
  contentJson <> VNull -> typeof contentJson = TObject ->
  exists w',
    setContentLanguage_body languageCode contentJson w = (Normal tt, w')
    /\ setContentLanguage languageCode contentJson w = (Normal tt, w')
    /\ activeContent w' = contentJson
    /\ activeContent w' <> VNull
    /\ currentLanguageCode w' = languageCode
    /\ console w' = console w ++ [(Log, ContentLoaded)].
Proof.
  intros Hn Ht. eexists. split; [apply setContentLanguage_body_completes|].
  split.
  - unfold setContentLanguage. rewrite (object_is_valid _ Hn Ht).
    unfold try_catch. rewrite setContentLanguage_body_completes. reflexivity.
  - simpl. repeat split; assumption.
Qed.

Lemma setContentLanguage_catch_unreachable_witness :
  exists w',
    setContentLanguage_body (VStr "EN") sample_tree (with_content (VObj [])) = (Normal tt, w')
    /\ setContentLanguage (VStr "EN") sample_tree (with_content (VObj [])) = (Normal tt, w')
    /\ activeContent w' = sample_tree
    /\ activeContent w' <> VNull
    /\ currentLanguageCode w' = VStr "EN"
    /\ console w' = console (with_content (VObj [])) ++ [(Log, ContentLoaded)].
Proof.
  apply setContentLanguage_catch_unreachable.
  - discriminate.
  - reflexivity.
Defined.

(** *** Initialization *)

Lemma initContentStorage_empty_languageCodes :
  ~ (forall config w, meets_init_contract config = false ->
       exists e w', initContentStorage config w = (Throw e, w')).
Proof.
  intros H.
  destruct (H empty_languageCodes_config (initial_world false) eq_refl)
    as (e & w' & Hrun).
  vm_compute in Hrun. discriminate Hrun.
Qed.

(** C5, as the code has it.  For a configuration object:
    a missing or falsy [contentKey] is rejected with the error naming
    contentKey; otherwise a [languageCodes] that is not an array is
    rejected with the error naming languageCodes; otherwise the
    configuration is stored, an empty [languageCodes] array included.  A
    rejected call leaves the world as it was. *)
Theorem initContentStorage_checks (fields : list (string * value)) (w : World) :
  let config := VObj fields in
  let contentKey := default VUndefined (assoc "contentKey" fields) in
  let languageCodes := default VUndefined (assoc "languageCodes" fields) in
  (truthy contentKey = false ->
   initContentStorage config w = (Throw InitNoContentKey, w))
  /\
  (truthy contentKey = true -> isArray languageCodes = false ->
   initContentStorage config w = (Throw InitNoLanguageCodes, w))
  /\
  (truthy contentKey = true -> isArray languageCodes = true ->
   exists w', initContentStorage config w = (Normal tt, w')
     /\ appConfig w' = config
     /\ activeContent w' = activeContent w
     /\ console w' = console w).
Proof.
  cbv zeta. unfold initContentStorage, bind, lift, ret, throw, get. simpl.
  repeat split.
  - intros ->. simpl. reflexivity.
  - intros -> ->. simpl. reflexivity.
  - intros -> ->. simpl. eexists. split; [reflexivity|]. repeat split.
Qed.

Lemma initContentStorage_checks_witness :
  initContentStorage (VObj [("languageCodes", VArr [VStr "EN"])]) (initial_world false)
    = (Throw InitNoContentKey, initial_world false)
  /\ initContentStorage (VObj [("contentKey", VStr "k"); ("languageCodes", VStr "EN")])
       (initial_world false)
    = (Throw InitNoLanguageCodes, initial_world false)
  /\ exists w', initContentStorage empty_languageCodes_config (initial_world false)
                  = (Normal tt, w')
       /\ appConfig w' = empty_languageCodes_config
       /\ activeContent w' = activeContent (initial_world false)
       /\ console w' = console (initial_world false).
Proof.
  split; [|split].
  - apply (proj1 (initContentStorage_checks
                    [("languageCodes", VArr [VStr "EN"])] (initial_world false))).
    reflexivity.
  - apply (proj1 (proj2 (initContentStorage_checks
                    [("contentKey", VStr "k"); ("languageCodes", VStr "EN")]
                    (initial_world false)))); reflexivity.
  - apply (proj2 (proj2 (initContentStorage_checks
                    [("contentKey", VStr "my-key"); ("languageCodes", VArr [])]
                    (initial_world false)))); reflexivity.
Defined.

(** ** Path Resolver *)

Lemma split_dot_nonempty s : split_dot s <> [].
Proof.
  destruct s as [|c s]; simpl; [discriminate|].
  destruct (Ascii.eqb c "."); [discriminate|].
  destruct (split_dot s); discriminate.
Qed.

Lemma child_sound v key next :
  child v key next ->
  truthy v && type_tag_eqb (typeof v) TObject = true
  /\ has_property key v = Normal true /\ get v key = Normal next.
Proof.
  intros H. destruct H as [fields key v Hf | elems key i v Hi Hl | elems].
  - simpl. rewrite Hf. repeat split.
  - simpl. rewrite Hi, Hl. split; [reflexivity|]. split; [|reflexivity].
    f_equal. apply Nat.ltb_lt. eapply lookup_lt_Some; eassumption.
  - repeat split.
Qed.

Lemma child_complete v key :
  truthy v && type_tag_eqb (typeof v) TObject = true ->
  has_property key v = Normal true ->
  exists next, get v key = Normal next /\ child v key next.
Proof.
  destruct v as [| | b | n | s | elems | fields]; simpl; try discriminate.
  all: try (intros _ Hin; discriminate Hin).
  all: try (rewrite andb_false_r; discriminate).
  - intros _ Hin. destruct (array_index key) as [i|] eqn:Hi.
    + injection Hin as Hlt. apply Nat.ltb_lt in Hlt.
      destruct (lookup_lt_is_Some_2 elems i Hlt) as [x Hx].
      exists x. rewrite Hx. split; [reflexivity|].
      eapply child_elem; eassumption.
    + injection Hin as Hk. rewrite Hk. apply String.eqb_eq in Hk. subst key.
      eexists. split; [reflexivity|]. apply child_length.
  - intros _ Hin. injection Hin as Hs. apply bool_decide_eq_true in Hs.
    destruct Hs as [x Hx]. exists x. rewrite Hx. split; [reflexivity|].
    apply child_field. exact Hx.
Qed.

(** The loop never throws: the guard in front of [key in current] rules
    out every operand on which [in] or the property read would raise. *)
Lemma walk_no_throw keys : forall current, exists r, walk keys current = Normal r.
Proof.
  induction keys as [|key rest IH]; intros current; simpl; [eauto|].
  destruct (truthy current && type_tag_eqb (typeof current) TObject) eqn:G; [|eauto].
  destruct current as [| | b | n | s | elems | fields];
    simpl in G; rewrite ?andb_false_r in G; try discriminate; simpl.
  - destruct (match array_index key with
              | Some i => (i <? length elems)%nat
              | None => String.eqb key "length" end); [apply IH | eauto].
  - destruct (bool_decide (is_Some (assoc key fields))); [apply IH | eauto].
Qed.

Lemma walk_resolves keys : forall current leaf,
  walk keys current = Normal (Some leaf) <-> resolves current keys leaf.
Proof.
  induction keys as [|key rest IH]; intros current leaf; simpl.
  - split.
    + intros [= ->]. constructor.
    + intros H. inversion H. reflexivity.
  - split.
    + destruct (truthy current && type_tag_eqb (typeof current) TObject) eqn:G;
        [|discriminate].
      destruct (has_property key current) as [[|]|e] eqn:Hin; try discriminate.
      destruct (child_complete _ _ G Hin) as (next & Hget & Hchild).
      rewrite Hget. intros Hw. apply IH in Hw.
      eapply resolves_step; eassumption.
    + intros H. inversion H as [|v k next r l Hchild Hres]; subst.
      destruct (child_sound _ _ _ Hchild) as (G & Hin & Hget).
      rewrite G, Hin, Hget. apply IH. exact Hres.
Qed.

Lemma walk_absent keys current :
  (forall leaf, ~ resolves current keys leaf) -> walk keys current = Normal None.
Proof.
  intros Habs. destruct (walk_no_throw keys current) as [[leaf|] Hr]; [|exact Hr].
  apply walk_resolves in Hr. destruct (Habs _ Hr).
Qed.

Lemma resolves_root_truthy v keys leaf :
  keys <> [] -> resolves v keys leaf -> truthy v = true.
Proof.
  intros Hne H. inversion H as [|v0 k next r l Hchild Hres]; subst; [congruence|].
  inversion Hchild; reflexivity.
Qed.

(** C6. When the path, split on dots, leads through the loaded tree to a
    string, [getText] without variables (the argument omitted, or an empty
    mapping) returns that very string and the path it was given; it writes
    nothing to the console and leaves the store as it was. *)
Theorem getText_returns_string_leaf (w : World) (path leaf : string)
  (variables : option (list (string * value))) :
  no_variables variables = true ->
  resolves (activeContent w) (split_dot path) (VStr leaf) ->
  exists w',
    getText path variables w = (Normal {| contentId := path; text := leaf |}, w')
    /\ activeContent w' = activeContent w
    /\ console w' = console w.
Proof.
  intros Hnone Hres.
  pose proof (resolves_root_truthy _ _ _ (split_dot_nonempty path) Hres) as Ht.
  apply walk_resolves in Hres.
  unfold getText, bind, read, lift, ret. rewrite Ht. simpl. rewrite Hres, Hnone.
  unfold record_observation, bind, read, ret, set_memoryMap.
  destruct (in_frame w); simpl; eexists; repeat split.
Qed.

Lemma getText_returns_string_leaf_witness :
  exists w',
    getText "HomePage.title" None (with_content sample_tree)
      = (Normal {| contentId := "HomePage.title"; text := "Welcome" |}, w')
    /\ activeContent w' = activeContent (with_content sample_tree)
    /\ console w' = console (with_content sample_tree).
Proof.
  apply getText_returns_string_leaf.
  - reflexivity.
  - eapply resolves_step; [apply child_field; reflexivity|].
    eapply resolves_step; [apply child_field; reflexivity|].
    apply resolves_here.
Defined.

(** *** Soft failure of the accessors *)

Lemma completes_ret {A} (a : A) : completes (ret a).
Proof. intros w0. unfold ret. eauto. Qed.

Lemma completes_read {A} (f : World -> A) : completes (read f).
Proof. intros w0. unfold read. eauto. Qed.

Lemma completes_lift {A} (a : A) : completes (lift (Normal a)).
Proof. intros w0. unfold lift. eauto. Qed.

Lemma completes_emit l msg : completes (emit l msg).
Proof. intros w0. unfold emit. eauto. Qed.

Lemma completes_bind {A B} (c : M A) (k : A -> M B) :
  completes c -> (forall a, completes (k a)) -> completes (bind c k).
Proof.
  intros Hc Hk w0. unfold bind. destruct (Hc w0) as (a & w1 & ->). apply Hk.
Qed.

Lemma completes_record_observation key contentId ty var :
  completes (record_observation key contentId ty var).
Proof.
  unfold record_observation. apply completes_bind; [apply completes_read|].
  intros [|]; [|apply completes_ret].
  apply completes_bind; [apply completes_read|].
  intros mm w0. unfold set_memoryMap. eauto.
Qed.

Lemma completes_populate text0 vars textKey :
  completes (populateTextWithVariables text0 vars textKey).
Proof.
  unfold populateTextWithVariables.
  destruct (populateTextWithVariables_pure text0 vars textKey) as [out logs].
  apply completes_bind; [|intros; apply completes_ret].
  intros w0. unfold emit_all. eauto.
Qed.

Lemma completes_walk keys current : completes (lift (walk keys current)).
Proof. destruct (walk_no_throw keys current) as [r ->]. apply completes_lift. Qed.

(** A value that passes [current && typeof current === 'object']. *)
Lemma object_guard (v : value) :
  truthy v && type_tag_eqb (typeof v) TObject = true ->
  (exists l, v = VArr l) \/ (exists l, v = VObj l).
Proof.
  destruct v; simpl; rewrite ?andb_false_r; try discriminate; eauto.
Qed.

Ltac completes_step :=
  first
    [ apply completes_ret
    | apply completes_read
    | apply completes_lift
    | apply completes_walk
    | apply completes_emit
    | apply completes_record_observation
    | apply completes_populate
    | apply completes_bind; [|intros ?]
    | match goal with
      | |- completes (if truthy ?v && type_tag_eqb (typeof ?v) TObject then _ else _) =>
          let G := fresh "G" in
          destruct (truthy v && type_tag_eqb (typeof v) TObject) eqn:G;
          [destruct (object_guard _ G) as [[? ->] | [? ->]]|]
      | |- completes (match ?x with _ => _ end) => destruct x
      | |- completes (if ?x then _ else _) => destruct x
      end ].

Ltac completes_auto :=
  repeat (progress (cbn [get has_property]) || completes_step).

Lemma getText_completes path variables : completes (getText path variables).
Proof. unfold getText. cbv zeta. completes_auto. Qed.

Lemma getImage_completes path : completes (getImage path).
Proof.
  unfold getImage. cbv zeta. unfold console_warn, console_log. completes_auto.
Qed.

Lemma getVariation_fallback_completes path variationKey current vdata :
  (exists l, vdata = VArr l) \/ (exists l, vdata = VObj l) ->
  completes (getVariation_fallback path variationKey current vdata).
Proof.
  unfold getVariation_fallback. cbv zeta. unfold console_warn.
  intros [[l ->] | [l ->]]; completes_auto.
Qed.

Lemma getVariation_completes path variationKey variables :
  completes (getVariation path variationKey variables).
Proof.
  unfold getVariation. cbv zeta. unfold console_warn.
  completes_auto; apply getVariation_fallback_completes; eauto.
Qed.

Section SoftFailure.
Variable w : World.
Variable path : string.
Variable variables : option (list (string * value)).
Variable variationKey : option string.

Lemma not_loaded_defaults :
  activeContent w = VNull ->
  getText path variables w
    = (Normal (empty_text path), warned w (GetText_NotLoaded path))
  /\ getImage path w
    = (Normal (empty_image_result path), warned w (GetImage_NotLoaded path))
  /\ getVariation path variationKey variables w
    = (Normal (empty_text path),
       warned w (GetVariation_NotLoaded path variationKey)).
Proof.
  intros Hnull. unfold getText, getImage, getVariation, bind, read.
  rewrite Hnull. repeat split.
Qed.

Lemma absent_path_defaults :
  truthy (activeContent w) = true ->
  (forall leaf, ~ resolves (activeContent w) (split_dot path) leaf) ->
  getText path variables w
    = (Normal (empty_text path), warned w (GetText_PathNotFound path))
  /\ getImage path w
    = (Normal (empty_image_result path), warned w (GetImage_PathNotFound path))
  /\ getVariation path variationKey variables w
    = (Normal (empty_text path), warned w (GetVariation_PathNotFound path)).
Proof.
  intros Ht Habs. apply walk_absent in Habs.
  unfold getText, getImage, getVariation, bind, read, lift.
  rewrite Ht, Habs. repeat split.
Qed.

Variable leaf : value.
Hypothesis Hloaded : truthy (activeContent w) = true.
Hypothesis Hleaf : resolves (activeContent w) (split_dot path) leaf.

Lemma getText_wrong_type :
  (forall s, leaf <> VStr s) ->
  getText path variables w
    = (Normal (empty_text path),
       warned w (GetText_NotAString path (typeof leaf))).
Proof.
  intros Hns. apply walk_resolves in Hleaf.
  unfold getText, bind, read, lift. rewrite Hloaded, Hleaf. simpl.
  destruct leaf; try reflexivity. destruct (Hns s). reflexivity.
Qed.

Lemma getImage_wrong_type :
  is_image_node leaf = false ->
  getImage path w
    = (Normal (empty_image_result path),
       warned w (GetImage_NotAnImage path leaf)).
Proof.
  intros Hni. apply walk_resolves in Hleaf.
  unfold getImage, bind, read, lift. rewrite Hloaded, Hleaf. simpl.
  destruct leaf as [| | b | n | s | elems | fields]; simpl;
    rewrite ?andb_false_r; try reflexivity.
  simpl in Hni.
  destruct (assoc "contentstorage_type" fields) as [[| | | | tag | |]|];
    simpl; try reflexivity.
  destruct (String.eqb tag "image"); [|reflexivity].
  destruct (assoc "url" fields) as [[| | | | u | |]|];
    simpl; try reflexivity; discriminate.
Qed.

Lemma getVariation_wrong_type :
  is_variation_node leaf = false ->
  getVariation path variationKey variables w
    = (Normal (empty_text path),
       warned w (GetVariation_NotAVariation path leaf)).
Proof.
  intros Hnv. apply walk_resolves in Hleaf.
  unfold getVariation, bind, read, lift. rewrite Hloaded, Hleaf. simpl.
  destruct leaf as [| | b | n | s | elems | fields]; simpl;
    rewrite ?andb_false_r; try reflexivity.
  simpl in Hnv.
  destruct (assoc "contentstorage_type" fields) as [[| | | | tag | |]|];
    simpl; try reflexivity.
  destruct (String.eqb tag "variation"); [|reflexivity].
  destruct (assoc "data" fields) as [[| | | | u | |]|];
    simpl; try reflexivity; discriminate.
Qed.

End SoftFailure.


Lemma sample_tree_absent :
  forall leaf, ~ resolves sample_tree (split_dot "HomePage.nope") leaf.
Proof. intros leaf H. apply walk_resolves in H. discriminate H. Qed.

Lemma sample_tree_title :
  resolves sample_tree (split_dot "HomePage.title") (VStr "Welcome").
Proof. apply walk_resolves. reflexivity. Qed.


(** *** The default variation *)

Section DefaultVariation.
Variable w : World.
Variable path : string.
Variable variables : option (list (string * value)).
Variables (fields vdata : list (string * value)) (dflt : string).

Hypothesis Hnode :
  resolves (activeContent w) (split_dot path) (VObj fields).
Hypothesis Htag : assoc "contentstorage_type" fields = Some (VStr "variation").
Hypothesis Hdata : assoc "data" fields = Some (VObj vdata).
Hypothesis Hdefault : assoc "default" vdata = Some (VStr dflt).

Lemma getVariation_reaches_node :
  truthy (activeContent w) = true
  /\ walk (split_dot path) (activeContent w) = Normal (Some (VObj fields)).
Proof.
  split.
  - eapply resolves_root_truthy; [apply split_dot_nonempty | exact Hnode].
  - apply walk_resolves. exact Hnode.
Qed.

(** With the key omitted the fallback to ['default'] is skipped: its
    condition also asks for [typeof variationKey === 'string']. *)
Lemma getVariation_omitted_key :
  getVariation path None variables w
    = (Normal (empty_text path),
       warned w (GetVariation_NeitherFound None path)).
Proof.
  destruct getVariation_reaches_node as [Ht Hw].
  unfold getVariation, bind, read, lift. rewrite Ht, Hw. simpl.
  rewrite Htag, Hdata. simpl.
  unfold getVariation_fallback, bind, lift. simpl.
  rewrite Hdefault. reflexivity.
Qed.

(** With a key that [data] does not have, the default string is returned
    as stored: the variables are not looked at. *)
Lemma getVariation_missing_key vk :
  assoc vk vdata = None ->
  exists w',
    getVariation path (Some vk) variables w
      = (Normal {| contentId := path; text := dflt |}, w').
Proof.
  intros Hmiss.
  destruct getVariation_reaches_node as [Ht Hw].
  unfold getVariation, bind, read, lift. rewrite Ht, Hw. simpl.
  rewrite Htag, Hdata. simpl. rewrite Hmiss.
  assert (Hb : bool_decide (is_Some (@None value)) = false).
  { apply bool_decide_eq_false. intros [x Hx]. discriminate Hx. }
  rewrite Hb.
  assert (Hfb : exists w', getVariation_fallback path (Some vk)
                   (VObj fields) (VObj vdata) w
                 = (Normal {| contentId := path; text := dflt |}, w')).
  { unfold getVariation_fallback, bind, lift. simpl. rewrite Hdefault.
    assert (Hd : bool_decide (is_Some (Some (VStr dflt))) = true).
    { apply bool_decide_eq_true. eauto. }
    rewrite Hd. simpl.
    destruct (negb (String.eqb vk "") && negb (String.eqb vk "default"));
      unfold console_warn, emit, ret, record_observation, bind, read, set_memoryMap;
      simpl; destruct (in_frame w); simpl; eauto. }
  destruct (negb (String.eqb vk "")); simpl; exact Hfb.
Qed.

End DefaultVariation.

(** C1 (the code departs from it).  On a variation node whose data is
    [{ default: "D" }], [getVariation("A")] with the key omitted returns
    the empty text and warns that neither key was found, although the same
    call with a key that is missing from the data returns the default
    ["D"]. *)
Theorem getVariation_omitted_key_misses_default :
  getVariation "A" None None (with_content default_only_tree)
    = (Normal {| contentId := "A"; text := "" |},
       warned (with_content default_only_tree) (GetVariation_NeitherFound None "A"))
  /\ fst (getVariation "A" (Some "missingKey") None (with_content default_only_tree))
     = Normal {| contentId := "A"; text := "D" |}.
Proof.
  split.
  - eapply getVariation_omitted_key with (dflt := "D");
      [apply walk_resolves| | |]; reflexivity.
  - reflexivity.
Qed.

(** C4 (the code departs from it).  With data
    [{ default: "Hi {name}", b: "Hi {name}" }] and variables
    [{ name: "John" }], a request for a missing key returns the default
    string uninterpolated, ["Hi {name}"]; the interpolator applied to it
    gives ["Hi John"], which is also what the branch for a present key
    returns. *)
Theorem getVariation_fallback_skips_interpolation :
  fst (getVariation "A" (Some "missing") (Some [("name", VStr "John")])
         (with_content greeting_variation_tree))
    = Normal {| contentId := "A"; text := "Hi {name}" |}
  /\ fst (populateTextWithVariables_pure "Hi {name}" [("name", VStr "John")] "A")
     = "Hi John"
  /\ fst (getVariation "A" (Some "b") (Some [("name", VStr "John")])
            (with_content greeting_variation_tree))
     = Normal {| contentId := "A"; text := "Hi John" |}.
Proof.
  split; [|split].
  - destruct (getVariation_missing_key (with_content greeting_variation_tree) "A"
                (Some [("name", VStr "John")]) _ _ "Hi {name}"
                ltac:(apply walk_resolves; reflexivity) eq_refl eq_refl eq_refl
                "missing" eq_refl) as [w' ->].
    reflexivity.
  - reflexivity.
  - reflexivity.
Qed.

(** ** Variable Interpolator *)

Lemma append_String c s t : String c s +:+ t = String c (s +:+ t).
Proof. reflexivity. Qed.

Lemma append_empty t : "" +:+ t = t.
Proof. reflexivity. Qed.

Lemma append_brace name after :
  (name +:+ "}") +:+ after = name +:+ String "}" after.
Proof.
  induction name as [|x l IH]; [reflexivity|].
  rewrite !append_String. f_equal. exact IH.
Qed.

Lemma braced_append name after :
  braced name +:+ after = String "{" (name +:+ String "}" after).
Proof.
  unfold braced. rewrite !append_String, append_empty, append_brace. reflexivity.
Qed.

Lemma span_word_identifier name after :
  all_word name = true ->
  span_word (name +:+ String "}" after) = (name, String "}" after).
Proof.
  induction name as [|c name IH]; [reflexivity|].
  intros H. simpl in H. apply andb_true_iff in H as [Hc Hn].
  rewrite append_String. simpl. rewrite Hc, (IH Hn). reflexivity.
Qed.

Lemma span_word_all_word s w after :
  span_word s = (w, after) -> all_word w = true /\ s = w +:+ after.
Proof.
  revert w after. induction s as [|c s IH]; intros w after; simpl.
  - intros [= <- <-]. split; reflexivity.
  - destruct (is_word_char c) eqn:Hc.
    + destruct (span_word s) as [w' a'] eqn:E. intros [= <- <-].
      destruct (IH _ _ eq_refl) as [Hw Hs]. simpl. rewrite Hc, Hw.
      split; [reflexivity|]. rewrite append_String. f_equal. exact Hs.
    + intros [= <- <-]. split; reflexivity.
Qed.

(** The one attempt with the longest run of word characters finds the
    pattern exactly when the text starts with an occurrence of it. *)
Lemma match_placeholder_Some text name after :
  match_placeholder text = Some (name, after) <->
  is_identifier name = true /\ text = braced name +:+ after.
Proof.
  split.
  - unfold match_placeholder. destruct text as [|c text]; [discriminate|].
    destruct (Ascii.eqb c "{") eqn:Ec.
    2:{ destruct c as [[] [] [] [] [] [] [] []]; try discriminate. }
    apply Ascii.eqb_eq in Ec. subst c.
    destruct (span_word text) as [w a] eqn:E.
    destruct w as [|c w]; [discriminate|].
    destruct a as [|d a]; [discriminate|].
    destruct (Ascii.eqb d "}") eqn:Ed.
    2:{ destruct d as [[] [] [] [] [] [] [] []]; try discriminate. }
    apply Ascii.eqb_eq in Ed. subst d.
    intros [= <- <-]. apply span_word_all_word in E as [Hw Ht].
    split.
    + unfold is_identifier. rewrite Hw. reflexivity.
    + rewrite braced_append. f_equal. exact Ht.
  - intros [Hid ->]. unfold is_identifier in Hid.
    apply andb_true_iff in Hid as [Hne Hw].
    rewrite braced_append. unfold match_placeholder.
    rewrite (span_word_identifier _ _ Hw).
    destruct name as [|c name]; [discriminate Hne | reflexivity].
Qed.

Lemma match_placeholder_None text :
  match_placeholder text = None -> ~ starts_with_placeholder text.
Proof.
  intros Hnone (name & after & Hid & Heq).
  assert (H : match_placeholder text = Some (name, after)).
  { apply match_placeholder_Some. split; assumption. }
  congruence.
Qed.

Lemma replace_placeholders_String replacer c rest :
  replace_placeholders replacer (String c rest) =
  match match_placeholder (String c rest) with
  | Some (variableName, after) =>
      let '(r, logs1) := replacer (braced variableName) variableName in
      let '(out, logs2) := replace_placeholders replacer after in
      (r +:+ out, logs1 ++ logs2)
  | None =>
      let '(out, logs) := replace_placeholders replacer rest in
      (String c out, logs)
  end.
Proof.
  simp replace_placeholders.
  destruct (inspect (match_placeholder (String c rest))) as [[[name after]|] H];
    simp replace_placeholders; rewrite H; reflexivity.
Qed.

Lemma replace_placeholders_interpolates variables textKey :
  forall n text, String.length text <= n ->
  interpolates variables text
    (fst (replace_placeholders (replacer_of variables textKey) text)).
Proof.
  induction n as [|n IH]; intros text Hlen.
  - destruct text; [|simpl in Hlen; lia].
    simp replace_placeholders. constructor.
  - destruct text as [|c rest].
    { simp replace_placeholders. constructor. }
    rewrite replace_placeholders_String.
    destruct (match_placeholder (String c rest)) as [[name after]|] eqn:Hm.
    + pose proof (match_placeholder_shorter _ _ _ Hm) as Hshort.
      apply match_placeholder_Some in Hm as [Hid Heq].
      specialize (IH after ltac:(simpl in *; lia)).
      destruct (replace_placeholders (replacer_of variables textKey) after)
        as [out logs2].
      rewrite Heq.
      pose proof (interpolates_placeholder variables name after out Hid IH) as Hp.
      unfold replacer_of, substituted in *.
      destruct (assoc name variables); simpl fst; exact Hp.
    + apply match_placeholder_None in Hm.
      specialize (IH rest ltac:(simpl in *; lia)).
      destruct (replace_placeholders (replacer_of variables textKey) rest)
        as [out logs].
      apply interpolates_char; assumption.
Qed.

Lemma interpolates_inv variables text out :
  interpolates variables text out ->
  match match_placeholder text with
  | Some (name, after) =>
      exists out', interpolates variables after out'
                   /\ out = substituted variables name +:+ out'
  | None =>
      match text with
      | EmptyString => out = ""
      | String c rest =>
          exists out', interpolates variables rest out' /\ out = String c out'
      end
  end.
Proof.
  intros H. destruct H as [|name after out Hid Hrest|c rest out Hno Hrest].
  - reflexivity.
  - assert (Hm : match_placeholder (braced name +:+ after) = Some (name, after))
      by (apply match_placeholder_Some; split; [assumption|reflexivity]).
    rewrite Hm. eauto.
  - destruct (match_placeholder (String c rest)) as [[name after]|] eqn:Hm.
    + destruct Hno. apply match_placeholder_Some in Hm as [Hid Heq].
      exists name, after. split; assumption.
    + eauto.
Qed.

(** The relation fixes the output: there is one way to replace every
    occurrence left to right. *)
Lemma interpolates_functional variables text out1 :
  interpolates variables text out1 ->
  forall out2, interpolates variables text out2 -> out1 = out2.
Proof.
  induction 1 as [|name after out Hid Hrest IH|c rest out Hno Hrest IH];
    intros out2 H2; apply interpolates_inv in H2.
  - exact (eq_sym H2).
  - assert (Hm : match_placeholder (braced name +:+ after) = Some (name, after))
      by (apply match_placeholder_Some; split; [assumption|reflexivity]).
    rewrite Hm in H2. destruct H2 as (out' & Hout' & ->).
    f_equal. apply IH. exact Hout'.
  - destruct (match_placeholder (String c rest)) as [[name after]|] eqn:Hm.
    + destruct Hno. apply match_placeholder_Some in Hm as [Hid Heq].
      exists name, after. split; assumption.
    + destruct H2 as (out' & Hout' & ->). f_equal. apply IH. exact Hout'.
Qed.



(** ** Fetch Coordinator *)

(** *** What a turn of the event loop can touch *)

Lemma settle_promises p s c q :
  q <> p -> promises (settle p s c) !! q = promises c !! q.
Proof.
  intros Hne. unfold settle. destruct (promises c !! p) as [[| |e]|]; try reflexivity.
  simpl. apply lookup_insert_ne. congruence.
Qed.

Lemma settle_other_fields p s c :
  fresh (settle p s c) = fresh c /\ timers (settle p s c) = timers c
  /\ calls (settle p s c) = calls c /\ network (settle p s c) = network c
  /\ world (settle p s c) = world c
  /\ debounceTimers (settle p s c) = debounceTimers c
  /\ cancelTokenSources (settle p s c) = cancelTokenSources c.
Proof.
  unfold settle. destruct (promises c !! p) as [[| |e]|]; repeat split.
Qed.

Lemma in_world_fields {A} (m : M A) c :
  let c' := snd (in_world m c) in
  promises c' = promises c /\ fresh c' = fresh c /\ timers c' = timers c
  /\ calls c' = calls c /\ network c' = network c
  /\ debounceTimers c' = debounceTimers c
  /\ cancelTokenSources c' = cancelTokenSources c.
Proof. unfold in_world. destruct (m (world c)). repeat split. Qed.

Lemma noref_same p c c' :
  timers c' = timers c -> calls c' = calls c -> network c' = network c ->
  noref p c -> noref p c'.
Proof. intros Ht Hc Hn. unfold noref. rewrite Ht, Hc, Hn. tauto. Qed.

Lemma noref_settle p q s c : noref p c -> noref p (settle q s c).
Proof.
  destruct (settle_other_fields q s c) as (_ & Ht & Hc & Hn & _).
  apply noref_same; assumption.
Qed.

Lemma noref_in_world {A} (m : M A) p c :
  noref p c -> noref p (snd (in_world m c)).
Proof.
  destruct (in_world_fields m c) as (_ & _ & Ht & Hc & Hn & _).
  apply noref_same; assumption.
Qed.

Lemma noref_issue p token call target c :
  call_promise call <> p -> noref p c -> noref p (issue token call target c).
Proof.
  intros Hne (H3 & H4 & H5). unfold noref, issue. simpl.
  repeat split; try assumption.
  - apply map_Forall_insert_2; assumption.
  - apply Forall_app. split; [assumption|]. constructor; [exact Hne | constructor].
Qed.

Lemma noref_cancel p token c : noref p c -> noref p (cancel token c).
Proof.
  intros (H3 & H4 & H5). unfold cancel.
  destruct (calls c !! token) as [[closure cancelled | t l u q]|] eqn:Hc;
    try (repeat split; assumption).
  unfold noref. simpl. repeat split; try assumption.
  apply map_Forall_insert_2; [|assumption].
  exact (H4 _ _ Hc).
Qed.

Lemma schedule_draft_superseded p language key c :
  schedule_draft p language key c =
  let c' := superseded (request_key language key) c in
  let closure := {| requestKey := request_key language key;
                    fileUrl := DraftUrl (to_String language);
                    languageToFetch := language; promise := p |} in
  {| world := world c';
     debounceTimers := <[request_key language key := fresh c']> (debounceTimers c');
     cancelTokenSources := cancelTokenSources c';
     timers := <[fresh c' := closure]> (timers c');
     calls := calls c'; promises := promises c'; network := network c';
     fresh := S (fresh c') |}.
Proof. reflexivity. Qed.

Lemma superseded_fields key c :
  let c' := superseded key c in
  promises c' = promises c /\ fresh c' = fresh c /\ network c' = network c
  /\ world c' = world c.
Proof.
  unfold superseded, cancel.
  destruct (cancelTokenSources c !! key) as [src|]; simpl.
  - destruct (calls c !! src) as [[closure cancelled | t l u q]|]; simpl;
      destruct (debounceTimers c !! key); repeat split.
  - destruct (debounceTimers c !! key); repeat split.
Qed.

Lemma noref_superseded p key c : noref p c -> noref p (superseded key c).
Proof.
  intros Hn. unfold superseded.
  set (c1 := match cancelTokenSources c !! key with
             | Some src => with_cancelTokenSources _ (cancel src c)
             | None => c end).
  assert (H1 : noref p c1).
  { subst c1. destruct (cancelTokenSources c !! key) as [src|]; [|assumption].
    apply (noref_same p (cancel src c)); try reflexivity.
    apply noref_cancel. assumption. }
  clearbody c1. destruct (debounceTimers c1 !! key) as [t|]; [|assumption].
  destruct H1 as (H3 & H4 & H5). unfold noref. simpl.
  repeat split; try assumption. apply map_Forall_delete. assumption.
Qed.

Lemma noref_schedule_draft p q language key c :
  q <> p -> noref p c -> noref p (schedule_draft q language key c).
Proof.
  intros Hne Hn. rewrite schedule_draft_superseded. cbv zeta.
  destruct (noref_superseded p (request_key language key) c Hn) as (H3 & H4 & H5).
  unfold noref. simpl. repeat split; try assumption.
  apply map_Forall_insert_2; [simpl; exact Hne | assumption].
Qed.

Lemma entered_fields language c :
  let c' := entered language c in
  promises c' = <[fresh c := Pending]> (promises c) /\ fresh c' = S (fresh c)
  /\ timers c' = timers c /\ calls c' = calls c /\ network c' = network c
  /\ debounceTimers c' = debounceTimers c
  /\ cancelTokenSources c' = cancelTokenSources c
  /\ appConfig (world c') = appConfig (world c).
Proof. repeat split. Qed.

(** The three ways out of the synchronous part of [fetchContent]. *)
Lemma fetchContent_cases language withPendingChanges contentKey c :
  let p := fresh c in
  let c1 := entered language c in
  let result := fetchContent language withPendingChanges contentKey c in
  fst result = p
  /\ ((exists e,
         draft_request_key language withPendingChanges contentKey c = None
         /\ snd result = settle p (Rejected e) c1)
      \/ (exists l k,
            draft_request_key language withPendingChanges contentKey c
              = Some (request_key l k)
            /\ snd result = schedule_draft p l k c1)
      \/ (exists target l u,
            draft_request_key language withPendingChanges contentKey c = None
            /\ snd result
               = issue (fresh c1) (CdnCall target l u p) target (snd (allocate c1)))).
Proof.
  cbv zeta. unfold fetchContent, draft_request_key, entered.
  unfold allocate at 1 3 5 7. cbv beta iota zeta. simpl fst. simpl snd.
  unfold in_world, console_log, emit. cbv beta iota zeta. simpl.
  destruct (truthy (js_or language _)); simpl;
    [|split; [reflexivity|left; eauto]].
  destruct (truthy (appConfig (world c))); simpl;
    [|split; [reflexivity|left; eauto]].
  destruct (truthy (js_or withPendingChanges _)); simpl.
  - destruct (truthy (js_or contentKey _)); simpl.
    + split; [reflexivity|]. right; left. eauto.
    + split; [reflexivity|left; eauto].
  - split; [reflexivity|]. right; right. unfold allocate. eauto 10.
Qed.

Lemma fetchContent_fresh language withPendingChanges contentKey c :
  fresh c < fresh (snd (fetchContent language withPendingChanges contentKey c)).
Proof.
  destruct (fetchContent_cases language withPendingChanges contentKey c)
    as (_ & [(e & _ & ->) | [(l & k & _ & ->) | (target & l & u & _ & ->)]]).
  - destruct (settle_other_fields (fresh c) (Rejected e) (entered language c))
      as (-> & _). simpl. lia.
  - rewrite schedule_draft_superseded. cbv zeta. simpl.
    destruct (superseded_fields (request_key l k) (entered language c))
      as (_ & -> & _). simpl. lia.
  - simpl. lia.
Qed.

(** A turn neither creates a reference to a promise other than the one
    it allocates, nor changes the state of a promise it has no reference
    to. *)
Lemma fetchContent_frame p language withPendingChanges contentKey c :
  p <> fresh c -> noref p c ->
  let c' := snd (fetchContent language withPendingChanges contentKey c) in
  noref p c' /\ promises c' !! p = promises c !! p.
Proof.
  intros Hne Hn. cbv zeta.
  assert (Hn1 : noref p (entered language c)).
  { revert Hn. apply noref_same; reflexivity. }
  assert (Hp1 : promises (entered language c) !! p = promises c !! p).
  { simpl. apply lookup_insert_ne. congruence. }
  destruct (fetchContent_cases language withPendingChanges contentKey c)
    as (_ & [(e & _ & ->) | [(l & k & _ & ->) | (target & l & u & _ & ->)]]).
  - split; [apply noref_settle; assumption|].
    rewrite settle_promises by congruence. exact Hp1.
  - split; [apply noref_schedule_draft; [congruence | assumption]|].
    rewrite schedule_draft_superseded. cbv zeta. simpl promises.
    destruct (superseded_fields (request_key l k) (entered language c)) as (-> & _).
    exact Hp1.
  - split; [|exact Hp1].
    apply noref_issue; [simpl; congruence|].
    revert Hn1. apply noref_same; reflexivity.
Qed.

Lemma timer_callback_frame p closure timer c :
  timers c !! timer = Some closure -> noref p c ->
  let c' := timer_callback closure (with_timers (delete timer (timers c)) c) in
  noref p c' /\ promises c' = promises c /\ fresh c' = S (fresh c).
Proof.
  intros Ht (H3 & H4 & H5). cbv zeta.
  unfold timer_callback, allocate. cbv beta iota zeta.
  split; [|split; reflexivity].
  apply noref_issue; [simpl; exact (H3 _ _ Ht)|].
  unfold noref. simpl. repeat split; try assumption.
  apply map_Forall_delete. assumption.
Qed.

Lemma draft_continuation_frame p closure cancelled o c :
  promise closure <> p -> noref p c ->
  let c' := draft_continuation closure cancelled o c in
  noref p c' /\ promises c' !! p = promises c !! p /\ fresh c' = fresh c.
Proof.
  intros Hne Hn. cbv zeta. unfold draft_continuation.
  match goal with |- context [in_world ?m ?c0] =>
    pose proof (noref_in_world m p c0 Hn) as Hn1;
    pose proof (in_world_fields m c0) as (Hp1 & Hf1 & _);
    destruct (in_world m c0) as [r c1] end.
  simpl in Hn1, Hp1, Hf1.
  set (c2 := with_cancelTokenSources _ c1).
  assert (Hn2 : noref p c2) by (revert Hn1; apply noref_same; reflexivity).
  assert (Hp2 : promises c2 = promises c) by exact Hp1.
  assert (Hf2 : fresh c2 = fresh c) by exact Hf1.
  assert (Hfinal : forall s c3,
            noref p c3 -> promises c3 = promises c -> fresh c3 = fresh c ->
            noref p (settle (promise closure) s c3)
            /\ promises (settle (promise closure) s c3) !! p = promises c !! p
            /\ fresh (settle (promise closure) s c3) = fresh c).
  { intros s c3 Hn3 Hp3 Hf3.
    destruct (settle_other_fields (promise closure) s c3) as (Hf & _).
    split; [apply noref_settle; assumption|].
    split; [rewrite settle_promises by congruence; rewrite Hp3; reflexivity|].
    congruence. }
  destruct r as [[]|error]; [apply Hfinal; assumption|].
  cbv zeta. fold c2.
  destruct error;
    match goal with |- context [in_world ?m ?c0] =>
      pose proof (noref_in_world m p c0 Hn2) as Hn3;
      pose proof (in_world_fields m c0) as (Hp3 & Hf3 & _);
      destruct (in_world m c0) as [r3 c3] end;
    simpl in Hn3, Hp3, Hf3; apply Hfinal; congruence.
Qed.

Lemma cdn_continuation_frame p target language usePending q o c :
  q <> p -> noref p c ->
  let c' := cdn_continuation target language usePending q o c in
  noref p c' /\ promises c' !! p = promises c !! p /\ fresh c' = fresh c.
Proof.
  intros Hne Hn. cbv zeta. unfold cdn_continuation.
  match goal with |- context [in_world ?m ?c0] =>
    pose proof (noref_in_world m p c0 Hn) as Hn1;
    pose proof (in_world_fields m c0) as (Hp1 & Hf1 & _);
    destruct (in_world m c0) as [r c1] end.
  simpl in Hn1, Hp1, Hf1.
  destruct (settle_other_fields q Resolved c1) as (Hf & _).
  split; [apply noref_settle; assumption|].
  split; [rewrite settle_promises by congruence; rewrite Hp1; reflexivity|].
  congruence.
Qed.

Lemma step_fresh e c : fresh c <= fresh (step e c).
Proof.
  destruct e as [a | language withPending contentKey | timer | token o]; simpl.
  - destruct (in_world_fields (api_run a) c) as (_ & -> & _). lia.
  - pose proof (fetchContent_fresh language withPending contentKey c). lia.
  - destruct (timers c !! timer) as [closure|]; [simpl|]; lia.
  - destruct (calls c !! token) as [[closure cancelled | target l u q]|]; [| |lia].
    + unfold draft_continuation.
      match goal with |- context [in_world ?m ?c0] =>
        pose proof (in_world_fields m c0) as (_ & Hf1 & _);
        destruct (in_world m c0) as [r c1] end.
      simpl in Hf1.
      destruct r as [[]|error].
      * destruct (settle_other_fields (promise closure) Resolved
                    (with_cancelTokenSources
                       (delete (requestKey closure) (cancelTokenSources c1)) c1))
          as (-> & _). simpl. lia.
      * cbv zeta.
        destruct error;
          match goal with |- context [in_world ?m ?c0] =>
            pose proof (in_world_fields m c0) as (_ & Hf3 & _);
            destruct (in_world m c0) as [r3 c3] end;
          simpl in Hf3;
          match goal with |- context [settle ?q ?s ?c0] =>
            destruct (settle_other_fields q s c0) as (-> & _) end; lia.
    + unfold cdn_continuation.
      match goal with |- context [in_world ?m ?c0] =>
        pose proof (in_world_fields m c0) as (_ & Hf1 & _);
        destruct (in_world m c0) as [r c1] end.
      simpl in Hf1.
      destruct (settle_other_fields q Resolved c1) as (-> & _). lia.
Qed.

Lemma step_frame p e c :
  noref p c -> p < fresh c \/ fresh (step e c) <= p ->
  noref p (step e c) /\ promises (step e c) !! p = promises c !! p.
Proof.
  intros Hn Hp.
  destruct e as [a | language withPending contentKey | timer | token o]; simpl.
  - split; [apply noref_in_world; assumption|].
    destruct (in_world_fields (api_run a) c) as (-> & _). reflexivity.
  - apply fetchContent_frame; [|assumption].
    pose proof (fetchContent_fresh language withPending contentKey c).
    simpl in Hp. lia.
  - destruct (timers c !! timer) as [closure|] eqn:Ht; [|split; [assumption|reflexivity]].
    destruct (timer_callback_frame p closure timer c Ht Hn) as (H1 & -> & _).
    split; [assumption|reflexivity].
  - destruct (calls c !! token) as [[closure cancelled | target l u q]|] eqn:Hc;
      [| |split; [assumption|reflexivity]].
    + pose proof Hn as (H3 & H4 & H5).
      pose proof (H4 _ _ Hc) as Hne. simpl in Hne.
      assert (Hn0 : noref p (with_calls (delete token (calls c)) c)).
      { unfold noref. simpl. repeat split; try assumption.
        apply map_Forall_delete. assumption. }
      destruct (draft_continuation_frame p closure cancelled o _ Hne Hn0)
        as (G1 & G2 & _).
      split; assumption.
    + pose proof Hn as (H3 & H4 & H5).
      pose proof (H4 _ _ Hc) as Hne. simpl in Hne.
      assert (Hn0 : noref p (with_calls (delete token (calls c)) c)).
      { unfold noref. simpl. repeat split; try assumption.
        apply map_Forall_delete. assumption. }
      destruct (cdn_continuation_frame p target l u q o _ Hne Hn0) as (G1 & G2 & _).
      split; assumption.
Qed.

(** Once unreferenced, a promise stays so. *)
Lemma unreferenced_step p e c : unreferenced p c -> unreferenced p (step e c).
Proof.
  intros (H1 & H2 & Hn).
  destruct (step_frame p e c Hn (or_introl H2)) as (G1 & G2).
  pose proof (step_fresh e c).
  unfold unreferenced. rewrite G2.
  split; [assumption|]. split; [lia | assumption].
Qed.

Lemma unreferenced_run p es : forall c,
  unreferenced p c -> unreferenced p (run_events es c).
Proof.
  induction es as [|e es IH]; intros c Hu; [exact Hu|].
  simpl. apply IH. apply unreferenced_step. exact Hu.
Qed.

(** Handles are handed out once. *)
Lemma handles_fresh_step e c : handles_fresh c -> handles_fresh (step e c).
Proof.
  intros Hf p Hp. pose proof (step_fresh e c) as Hmono.
  destruct (Hf p ltac:(lia)) as (H1 & Hn).
  destruct (step_frame p e c Hn (or_intror Hp)) as (G1 & G2).
  split; [rewrite G2; exact H1 | exact G1].
Qed.

Lemma handles_fresh_reachable c : reachable c -> handles_fresh c.
Proof.
  intros (frame & es & ->).
  assert (H0 : handles_fresh (initial_coordinator frame)).
  { intros p _. split; [reflexivity|].
    unfold noref. simpl. repeat split.
    - apply map_Forall_empty.
    - apply map_Forall_empty.
    - constructor. }
  revert H0. generalize (initial_coordinator frame).
  induction es as [|e es IH]; intros c H0; [exact H0|].
  simpl. apply IH. apply handles_fresh_step. exact H0.
Qed.

(** *** Superseding a scheduled draft fetch *)

Lemma superseded_calls p key c :
  map_Forall (fun _ call => call_promise call <> p) (calls c) ->
  map_Forall (fun _ call => call_promise call <> p) (calls (superseded key c)).
Proof.
  intros H4. unfold superseded.
  set (c1 := match cancelTokenSources c !! key with
             | Some src => with_cancelTokenSources _ (cancel src c)
             | None => c end).
  assert (H1 : map_Forall (fun _ call => call_promise call <> p) (calls c1)).
  { subst c1. destruct (cancelTokenSources c !! key) as [src|]; [|assumption].
    simpl. unfold cancel.
    destruct (calls c !! src) as [[closure cancelled | t l u q]|] eqn:Hc;
      try assumption.
    simpl. apply map_Forall_insert_2; [|assumption]. exact (H4 _ _ Hc). }
  clearbody c1. destruct (debounceTimers c1 !! key); assumption.
Qed.

Lemma superseded_timers key t c :
  debounceTimers c !! key = Some t ->
  timers (superseded key c) = delete t (timers c).
Proof.
  intros Hd. unfold superseded.
  set (c1 := match cancelTokenSources c !! key with
             | Some src => with_cancelTokenSources _ (cancel src c)
             | None => c end).
  assert (H1 : debounceTimers c1 = debounceTimers c /\ timers c1 = timers c).
  { subst c1. destruct (cancelTokenSources c !! key) as [src|]; [|split; reflexivity].
    simpl. unfold cancel.
    destruct (calls c !! src) as [[closure cancelled | t' l u q]|];
      split; reflexivity. }
  clearbody c1. destruct H1 as [Hd1 Ht1]. rewrite Hd1, Hd. simpl.
  rewrite Ht1. reflexivity.
Qed.

(** A draft invocation from a state whose unused handles are fresh
    leaves its promise pending and in the hands of one timer only: the
    one it registered under the request key. *)
Lemma draft_invocation_arms language withPendingChanges contentKey key c :
  handles_fresh c ->
  draft_request_key language withPendingChanges contentKey c = Some key ->
  armed_only_by (fresh c) (S (fresh c)) key
    (snd (fetchContent language withPendingChanges contentKey c)).
Proof.
  intros Hfresh Hkey.
  destruct (Hfresh (fresh c) (le_n _)) as (_ & Hn).
  destruct (fetchContent_cases language withPendingChanges contentKey c)
    as (_ & [(e & Hk & _) | [(l & k & Hk & ->) | (target & l & u & Hk & _)]]);
    try congruence.
  rewrite Hk in Hkey. injection Hkey as Hkey.
  rewrite schedule_draft_superseded, Hkey. cbv zeta.
  assert (Hn1 : noref (fresh c) (entered language c)).
  { revert Hn. apply noref_same; reflexivity. }
  destruct (noref_superseded _ key _ Hn1) as (H3 & H4 & H5).
  destruct (superseded_fields key (entered language c)) as (Hp & Hf & _).
  unfold armed_only_by. simpl. rewrite Hp, Hf. simpl.
  split; [apply lookup_insert_eq|].
  split; [lia|].
  split; [apply lookup_insert_eq|].
  split; [|split; assumption].
  apply map_Forall_insert_2; [reflexivity|].
  intros h closure Hh Hpromise. destruct (H3 _ _ Hh Hpromise).
Qed.

(** A second draft invocation for the same key clears that timer, and
    with it the only way to settle the first promise. *)
Lemma draft_invocation_supersedes p t language withPendingChanges contentKey key c :
  armed_only_by p t key c ->
  draft_request_key language withPendingChanges contentKey c = Some key ->
  unreferenced p (snd (fetchContent language withPendingChanges contentKey c)).
Proof.
  intros (H1 & H2 & Hd & H3 & H4 & H5) Hkey.
  destruct (fetchContent_cases language withPendingChanges contentKey c)
    as (_ & [(e & Hk & _) | [(l & k & Hk & ->) | (target & l & u & Hk & _)]]);
    try congruence.
  rewrite Hk in Hkey. injection Hkey as Hkey.
  rewrite schedule_draft_superseded, Hkey. cbv zeta.
  destruct (superseded_fields key (entered language c)) as (Hp & Hf & Hnet & _).
  pose proof (superseded_timers key t (entered language c) Hd) as Ht.
  pose proof (superseded_calls p key (entered language c) H4) as Hc.
  unfold unreferenced, noref. simpl. rewrite Hp, Hf, Hnet, Ht. simpl.
  split; [rewrite lookup_insert_ne by lia; exact H1|].
  split; [lia|].
  split; [|split; assumption].
  apply map_Forall_insert_2; [simpl; lia|].
  intros h closure Hh Hpromise.
  apply lookup_delete_Some in Hh as [Hne Hh].
  apply Hne. symmetry. exact (H3 _ _ Hh Hpromise).
Qed.

(** Two draft invocations in a row for the same request key, from any
    reachable state: whatever happens afterwards, the promise of the
    first stays pending and no network call is ever issued for it. *)
Lemma superseded_promise_never_settles
  (c : Coordinator) (key : string) (l1 w1 k1 l2 w2 k2 : value) (es : list event) :
  reachable c ->
  draft_request_key l1 w1 k1 c = Some key ->
  let first := fetchContent l1 w1 k1 c in
  draft_request_key l2 w2 k2 (snd first) = Some key ->
  let second := fetchContent l2 w2 k2 (snd first) in
  let final := run_events es (snd second) in
  promises final !! fst first = Some Pending
  /\ Forall (fun issued => fst issued <> fst first) (network final)
  /\ map_Forall (fun _ call => call_promise call <> fst first) (calls final).
Proof.
  intros Hreach Hk1 first Hk2 second final.
  pose proof (draft_invocation_arms l1 w1 k1 key c
                (handles_fresh_reachable c Hreach) Hk1) as Harmed.
  pose proof (draft_invocation_supersedes _ _ l2 w2 k2 key _ Harmed Hk2) as Hu.
  apply (unreferenced_run _ es) in Hu.
  destruct (fetchContent_cases l1 w1 k1 c) as (Hp & _).
  subst first second final. rewrite Hp.
  destruct Hu as (G1 & _ & G3 & G4 & G5).
  split; [assumption|]. split; assumption.
Qed.

Example superseded_promise_never_settles_sample :
  let c := configured draft_config in
  let first := fetchContent VUndefined VUndefined VUndefined c in
  let second := fetchContent (VStr "EN") VUndefined (VStr "my-key") (snd first) in
  let final := run_events [TimerFires 4; OutcomeArrives 5 (Response (VObj []))]
                 (snd second) in
  promises final !! 1 = Some Pending /\ promises final !! 3 = Some Resolved.
Proof.
  cbv zeta. split; [|vm_compute; reflexivity].
  refine (proj1 (superseded_promise_never_settles (configured draft_config)
                   "EN:my-key" VUndefined VUndefined VUndefined
                   (VStr "EN") VUndefined (VStr "my-key") _ _ eq_refl eq_refl)).
  exists false, [Calls (CallInitContentStorage draft_config)]. reflexivity.
Qed.

(** *** Bodies that are not objects *)

(** The part of C2 that holds: a body that is a primitive makes the draft path reject with the unexpected-shape
    error and makes the CDN path log and resolve; the store keeps its
    content either way. *)
Lemma primitive_body_refused (closure : Closure) (target : url)
  (language usePending : value) (p : nat) (body : value) (c : Coordinator) :
  typeof body <> TObject ->
  body <> VUndefined ->
  truthy usePending = false ->
  promises c !! promise closure = Some Pending ->
  promises c !! p = Some Pending ->
  let d := draft_continuation closure false (Response body) c in
  let n := cdn_continuation target language usePending p (Response body) c in
  promises d !! promise closure
    = Some (Rejected (ExpectedJsonObject (typeof body)))
  /\ activeContent (world d) = activeContent (world c)
  /\ promises n !! p = Some Resolved
  /\ activeContent (world n) = activeContent (world c)
  /\ console (world n)
     = console (world c)
       ++ [(Error, Fetch_ErrorProcessing language target);
           (Error, Fetch_ErrorDetail (ExpectedJsonObject (typeof body)))].
Proof.
  intros Hty Hdef Hcdn Hp1 Hp2. cbv zeta.
  unfold draft_continuation, cdn_continuation, in_world, bind, lift, awaited,
    draft_try_block, cdn_try_block, try_catch.
  rewrite Hcdn.
  destruct body as [| | b | n | s | elems | fields]; simpl in *;
    try congruence;
    rewrite ?andb_false_r; simpl; unfold settle; simpl;
    rewrite ?Hp1, ?Hp2; simpl; rewrite ?lookup_insert_eq; repeat split;
    rewrite <- app_assoc; reflexivity.
Qed.

(** With the envelope in play (draft path only): a primitive under
    [data] is refused as well. *)
Lemma enveloped_primitive_refused (closure : Closure) (fields : list (string * value))
  (payload : value) (c : Coordinator) :
  assoc "data" fields = Some payload ->
  typeof payload <> TObject -> payload <> VUndefined ->
  promises c !! promise closure = Some Pending ->
  let d := draft_continuation closure false (Response (VObj fields)) c in
  promises d !! promise closure
    = Some (Rejected (ExpectedJsonObject (typeof payload)))
  /\ activeContent (world d) = activeContent (world c).
Proof.
  intros Hdata Hty Hdef Hp. cbv zeta.
  unfold draft_continuation, in_world, bind, lift, awaited, draft_try_block.
  simpl. rewrite Hdata. simpl.
  destruct payload; simpl in *; try congruence;
    unfold settle; simpl; rewrite Hp; simpl; rewrite lookup_insert_eq;
    repeat split.
Qed.

(** C2 (the code departs from it).  An array passes the shape check of
    both paths, because its type is object: the [try] block completes and
    the array becomes the active content.  On the draft path the promise
    resolves, on the CDN path no error line is written; the same happens
    to an array inside the draft envelope. *)
Theorem fetchContent_accepts_array_body (elems : list value) (language : value)
  (w : World) :
  (exists w', draft_try_block language (VArr elems) w = (Normal tt, w')
              /\ activeContent w' = VArr elems)
  /\ (exists w', cdn_try_block language VUndefined (VArr elems) w = (Normal tt, w')
                 /\ activeContent w' = VArr elems)
  /\ (let c := run_events [Invoke (VStr "EN") (VBool true) VUndefined;
                           TimerFires 2;
                           OutcomeArrives 3 (Response (VArr [VStr "a"]))]
                          (configured cdn_config) in
      activeContent (world c) = VArr [VStr "a"]
      /\ promises c !! 1 = Some Resolved)
  /\ (let c := run_events [Invoke (VStr "EN") (VBool true) VUndefined;
                           TimerFires 2;
                           OutcomeArrives 3
                             (Response (VObj [("data", VArr [VStr "a"])]))]
                          (configured cdn_config) in
      activeContent (world c) = VArr [VStr "a"]
      /\ promises c !! 1 = Some Resolved)
  /\ (let c := run_events [Invoke (VStr "EN") VUndefined VUndefined;
                           OutcomeArrives 2 (Response (VArr [VStr "a"]))]
                          (configured cdn_config) in
      activeContent (world c) = VArr [VStr "a"]
      /\ promises c !! 1 = Some Resolved
      /\ filter is_error_line (console (world c)) = []).
Proof.
  split; [|split; [|split; [|split]]].
  - eexists. split; reflexivity.
  - eexists. split; reflexivity.
  - split; vm_compute; reflexivity.
  - split; vm_compute; reflexivity.
  - repeat split; vm_compute; reflexivity.
Qed.

(** *** Superseded draft fetches *)

Lemma two_draft_invocations_unreferenced : unreferenced 1 two_draft_invocations.
Proof.
  unfold unreferenced. split; [vm_compute; reflexivity|].
  split; [vm_compute; lia|].
  split; [|split].
  - apply map_Forall_to_list. vm_compute.
    repeat (constructor; [discriminate|]). constructor.
  - apply map_Forall_to_list. vm_compute. constructor.
  - vm_compute. constructor.
Qed.

(** C3 (the code departs from it).  After two draft invocations for
    the same language and content key, the second issued before the timer
    of the first fires: the first invocation's timer is no longer armed,
    so whatever happens next its network call is never issued; but its
    promise, 1, is never settled either, it stays pending for ever.  In
    the run where the surviving timer fires and the response arrives, the
    only network call is the second invocation's, the store receives its
    payload and promise 3 resolves. *)
Theorem superseded_draft_fetch_stays_pending :
  fst (fetchContent (VStr "EN") (VBool true) VUndefined (configured cdn_config)) = 1
  /\ timers two_draft_invocations !! 2 = None
  /\ (forall es,
        let c := run_events es two_draft_invocations in
        promises c !! 1 = Some Pending
        /\ Forall (fun issued => fst issued <> 1) (network c))
  /\ (let c := run_events
                 [TimerFires 2; TimerFires 4;
                  OutcomeArrives 5 (Response (VObj [("data", VObj [("A", VStr "v")])]))]
                 two_draft_invocations in
      promises c !! 1 = Some Pending
      /\ promises c !! 3 = Some Resolved
      /\ network c = [(3, DraftUrl "EN")]
      /\ activeContent (world c) = VObj [("A", VStr "v")]).
Proof.
  split; [vm_compute; reflexivity|].
  split; [vm_compute; reflexivity|].
  split.
  - intros es c.
    destruct (unreferenced_run 1 es _ two_draft_invocations_unreferenced)
      as (H1 & _ & _ & _ & H5).
    split; assumption.
  - repeat split; vm_compute; reflexivity.
Qed.

(* ===================================================================== *)
(** * Properties beyond the listed claims *)

(** ** Path Resolver: what the accessors return on success *)

Lemma resolves_walk w path v :
  resolves (activeContent w) (split_dot path) v ->
  truthy (activeContent w) = true
  /\ walk (split_dot path) (activeContent w) = Normal (Some v).
Proof.
  intros H. split.
  - eapply resolves_root_truthy; [apply split_dot_nonempty | exact H].
  - apply walk_resolves. exact H.
Qed.

Lemma obj_set_assoc_eq key x fields :
  assoc key (obj_set key x fields) = Some x.
Proof.
  induction fields as [|[k v] rest IH]; simpl.
  - rewrite String.eqb_refl. reflexivity.
  - destruct (String.eqb k key) eqn:E; simpl; rewrite E; [reflexivity | exact IH].
Qed.

Lemma obj_set_assoc_ne key key' x fields :
  key' <> key -> assoc key' (obj_set key x fields) = assoc key' fields.
Proof.
  intros Hne. induction fields as [|[k v] rest IH]; simpl.
  - destruct (String.eqb key key') eqn:E; [|reflexivity].
    apply String.eqb_eq in E. congruence.
  - destruct (String.eqb k key) eqn:E; simpl.
    + apply String.eqb_eq in E. subst k.
      destruct (String.eqb key key') eqn:E'; [|reflexivity].
      apply String.eqb_eq in E'. congruence.
    + destruct (String.eqb k key'); [reflexivity | exact IH].
Qed.

(** X1. On a path that leads to an image node, [getImage] returns the
    node with its [url] replaced by the CDN prefix followed by the stored
    url; every other field of the node (the alt text among them) is
    returned as stored.  The call logs the stored url and leaves the
    store alone. *)
Theorem getImage_rewrites_url (w : World) (path u : string)
  (fields : list (string * value)) :
  resolves (activeContent w) (split_dot path) (VObj fields) ->
  assoc "contentstorage_type" fields = Some (VStr "image") ->
  assoc "url" fields = Some (VStr u) ->
  exists fields' w',
    getImage path w
      = (Normal {| image_contentId := path; data := VObj fields' |}, w')
    /\ assoc "url" fields' = Some (VStr ("https://cdn.contentstorage.app/" +:+ u))
    /\ (forall key, key <> "url" -> assoc key fields' = assoc key fields)
    /\ console w' = console w ++ [(Log, GetImage_Url (VStr u))]
    /\ activeContent w' = activeContent w.
Proof.
  intros Hres Htag Hurl. destruct (resolves_walk _ _ _ Hres) as [Ht Hw].
  exists (obj_set "url" (VStr (cdn_prefix +:+ u)) fields).
  unfold getImage, bind, read, lift. rewrite Ht, Hw. simpl.
  rewrite Htag, Hurl. simpl.
  unfold record_observation, bind, read, ret, set_memoryMap, console_log, emit.
  destruct (in_frame w); simpl; eexists;
    (split; [reflexivity|]);
    (split; [apply obj_set_assoc_eq|]);
    (split; [intros key Hne; apply obj_set_assoc_ne; exact Hne|]);
    split; reflexivity.
Qed.

Lemma getImage_rewrites_url_witness :
  exists fields' w',
    getImage "HomePage.heroImage" (with_content sample_tree)
      = (Normal {| image_contentId := "HomePage.heroImage"; data := VObj fields' |}, w')
    /\ assoc "url" fields' = Some (VStr ("https://cdn.contentstorage.app/" +:+ "x.png"))
    /\ (forall key, key <> "url" ->
        assoc key fields'
        = assoc key [("contentstorage_type", VStr "image");
                     ("url", VStr "x.png"); ("altText", VStr "alt")])
    /\ console w' = console (with_content sample_tree)
                    ++ [(Log, GetImage_Url (VStr "x.png"))]
    /\ activeContent w' = activeContent (with_content sample_tree).
Proof.
  apply getImage_rewrites_url.
  - apply walk_resolves. reflexivity.
  - reflexivity.
  - reflexivity.
Defined.



(** The common start of [getVariation] on a path that leads to a
    variation node: what remains is the choice among its data. *)
Lemma getVariation_on_node (w : World) (path : string)
  (variationKey : option string) (variables : option (list (string * value)))
  (fields vdata : list (string * value)) :
  resolves (activeContent w) (split_dot path) (VObj fields) ->
  assoc "contentstorage_type" fields = Some (VStr "variation") ->
  assoc "data" fields = Some (VObj vdata) ->
  getVariation path variationKey variables w =
  (do requested <-
     match variationKey with
     | Some vk =>
         if negb (String.eqb vk "")
         then lift (has_property vk (VObj vdata)) else ret false
     | None => ret false
     end;
   match (requested : bool), variationKey with
   | true, Some vk =>
       do chosen <- lift (get (VObj vdata) vk);
       match chosen with
       | VStr c =>
           record_observation (VStr c) path EVariation (Some vk) ;;
           if no_variables variables then
             ret {| contentId := path; text := c |}
           else
             do t <- populateTextWithVariables c (default [] variables) path;
             ret {| contentId := path; text := t |}
       | other =>
           console_warn (GetVariation_ValueNotAString vk path (typeof other)) ;;
           getVariation_fallback path variationKey (VObj fields) (VObj vdata)
       end
   | _, _ => getVariation_fallback path variationKey (VObj fields) (VObj vdata)
   end) w.
Proof.
  intros Hres Htag Hdata. destruct (resolves_walk _ _ _ Hres) as [Ht Hw].
  unfold getVariation, bind, read, lift. rewrite Ht, Hw. simpl.
  rewrite Htag, Hdata. simpl. reflexivity.
Qed.

Lemma is_Some_decide {A} (o : option A) x :
  o = Some x -> bool_decide (is_Some o) = true.
Proof. intros ->. apply bool_decide_eq_true. eauto. Qed.

Lemma is_None_decide {A} (o : option A) :
  o = None -> bool_decide (is_Some o) = false.
Proof. intros ->. apply bool_decide_eq_false. intros [x Hx]. discriminate. Qed.



(** X4. When the requested key is present in the data but its value is
    not a string, [getVariation] says so on the console and falls back:
    with a string under ["default"] it returns that string and adds the
    fallback warning. *)
Theorem getVariation_non_string_value (w : World) (path vk dflt : string)
  (bad : value) (variables : option (list (string * value)))
  (fields vdata : list (string * value)) :
  resolves (activeContent w) (split_dot path) (VObj fields) ->
  assoc "contentstorage_type" fields = Some (VStr "variation") ->
  assoc "data" fields = Some (VObj vdata) ->
  vk <> "" ->
  assoc vk vdata = Some bad ->
  (forall s, bad <> VStr s) ->
  assoc "default" vdata = Some (VStr dflt) ->
  exists w',
    getVariation path (Some vk) variables w
      = (Normal {| contentId := path; text := dflt |}, w')
    /\ console w'
       = console w
         ++ [(Warn, GetVariation_ValueNotAString vk path (typeof bad));
             (Warn, GetVariation_ReturningDefault vk path)]
    /\ activeContent w' = activeContent w.
Proof.
  intros Hres Htag Hdata Hne Hvk Hbad Hdflt.
  rewrite (getVariation_on_node w path (Some vk) variables fields vdata Hres Htag Hdata).
  assert (Hnonempty : negb (String.eqb vk "") = true).
  { destruct (String.eqb vk "") eqn:E; [|reflexivity].
    apply String.eqb_eq in E. congruence. }
  assert (Hnotdefault : negb (String.eqb vk "default") = true).
  { destruct (String.eqb vk "default") eqn:E; [|reflexivity].
    apply String.eqb_eq in E. subst vk. rewrite Hvk in Hdflt.
    injection Hdflt as ->. destruct (Hbad dflt). reflexivity. }
  rewrite Hnonempty. unfold bind at 1, lift at 1. simpl has_property.
  rewrite (is_Some_decide _ _ Hvk). cbv iota.
  unfold bind at 1, lift at 1. simpl get. rewrite Hvk. simpl default.
  assert (Hfall :
    forall w0, exists w',
      getVariation_fallback path (Some vk) (VObj fields) (VObj vdata) w0
        = (Normal {| contentId := path; text := dflt |}, w')
      /\ console w' = console w0 ++ [(Warn, GetVariation_ReturningDefault vk path)]
      /\ activeContent w' = activeContent w0).
  { intros w0. unfold getVariation_fallback, bind, lift. simpl has_property.
    rewrite (is_Some_decide _ _ Hdflt). simpl get. rewrite Hdflt. simpl default.
    rewrite Hnonempty, Hnotdefault. simpl andb. cbv iota.
    unfold console_warn, emit, record_observation, bind, read, ret, set_memoryMap.
    simpl. destruct (in_frame w0); simpl; eexists; repeat split. }
  destruct bad as [| | b | n | s | l | l];
    try (destruct (Hbad s); reflexivity);
    unfold bind, console_warn, emit; simpl;
    match goal with |- context [getVariation_fallback _ _ _ _ ?w0] =>
      destruct (Hfall w0) as (w' & -> & Hc & Ha) end;
    exists w'; (split; [reflexivity|]); rewrite Hc, Ha; simpl;
    rewrite <- app_assoc; split; reflexivity.
Qed.

Lemma getVariation_non_string_value_witness :
  exists w',
    getVariation "A" (Some "b") None
      (with_content
         (VObj [("A", VObj [("contentstorage_type", VStr "variation");
                            ("data", VObj [("default", VStr "D"); ("b", VNum 3)])])]))
      = (Normal {| contentId := "A"; text := "D" |}, w')
    /\ console w'
       = console (with_content
                    (VObj [("A", VObj [("contentstorage_type", VStr "variation");
                                       ("data", VObj [("default", VStr "D");
                                                      ("b", VNum 3)])])]))
         ++ [(Warn, GetVariation_ValueNotAString "b" "A" (typeof (VNum 3)));
             (Warn, GetVariation_ReturningDefault "b" "A")]
    /\ activeContent w'
       = activeContent
           (with_content
              (VObj [("A", VObj [("contentstorage_type", VStr "variation");
                                 ("data", VObj [("default", VStr "D");
                                                ("b", VNum 3)])])])).
Proof.
  eapply getVariation_non_string_value.
  - apply walk_resolves. reflexivity.
  - reflexivity.
  - reflexivity.
  - discriminate.
  - reflexivity.
  - discriminate.
  - reflexivity.
Defined.

(** X5. Resolution step three of [getVariation]: on a variation node
    whose data has no ["default"] entry, a call that does not name a key
    bound to a string returns the empty text, after a warning. *)
Theorem getVariation_nothing_usable (w : World) (path : string)
  (variationKey : option string) (variables : option (list (string * value)))
  (fields vdata : list (string * value)) :
  resolves (activeContent w) (split_dot path) (VObj fields) ->
  assoc "contentstorage_type" fields = Some (VStr "variation") ->
  assoc "data" fields = Some (VObj vdata) ->
  assoc "default" vdata = None ->
  (forall vk s, variationKey = Some vk -> assoc vk vdata <> Some (VStr s)) ->
  exists w',
    getVariation path variationKey variables w
      = (Normal {| contentId := path; text := "" |}, w')
    /\ (exists lines,
          console w'
          = console w ++ lines
            ++ [(Warn, GetVariation_NeitherFound variationKey path)])
    /\ activeContent w' = activeContent w.
Proof.
  intros Hres Htag Hdata Hnodefault Hnokey.
  rewrite (getVariation_on_node w path variationKey variables fields vdata
             Hres Htag Hdata).
  assert (Hfall :
    forall w0, exists w',
      getVariation_fallback path variationKey (VObj fields) (VObj vdata) w0
        = (Normal {| contentId := path; text := "" |}, w')
      /\ console w' = console w0 ++ [(Warn, GetVariation_NeitherFound variationKey path)]
      /\ activeContent w' = activeContent w0).
  { intros w0. unfold getVariation_fallback, bind, lift. simpl has_property.
    rewrite (is_None_decide _ Hnodefault). cbv iota.
    unfold console_warn, emit, ret. simpl. eexists. repeat split. }
  assert (Hdirect :
    exists w',
      getVariation_fallback path variationKey (VObj fields) (VObj vdata) w
        = (Normal {| contentId := path; text := "" |}, w')
      /\ (exists lines,
            console w' = console w ++ lines
              ++ [(Warn, GetVariation_NeitherFound variationKey path)])
      /\ activeContent w' = activeContent w).
  { destruct (Hfall w) as (w' & Hr & Hc & Ha). exists w'.
    split; [exact Hr|]. split; [exists []; exact Hc | exact Ha]. }
  destruct variationKey as [vk|]; [|unfold bind at 1, ret at 1; exact Hdirect].
  destruct (negb (String.eqb vk "")); [|unfold bind at 1, ret at 1; exact Hdirect].
  unfold bind at 1, lift at 1. simpl has_property.
  destruct (assoc vk vdata) as [v|] eqn:Hvk.
  - rewrite (is_Some_decide _ _ eq_refl). cbv iota.
    unfold bind at 1, lift at 1. simpl get. rewrite Hvk. simpl default.
    destruct v as [| | b | n | s | l | l];
      try (destruct (Hnokey vk s eq_refl); exact Hvk);
      unfold bind, console_warn, emit; simpl;
      match goal with |- context [getVariation_fallback _ _ _ _ ?w0] =>
        destruct (Hfall w0) as (w' & -> & Hc & Ha) end;
      exists w'; (split; [reflexivity|]); rewrite Hc, Ha; simpl;
      (split; [eexists [_]; rewrite <- app_assoc; reflexivity | reflexivity]).
  - rewrite (is_None_decide _ eq_refl). cbv iota. exact Hdirect.
Qed.

Lemma getVariation_nothing_usable_witness :
  exists w',
    getVariation "A" (Some "b") None
      (with_content
         (VObj [("A", VObj [("contentstorage_type", VStr "variation");
                            ("data", VObj [("a", VStr "x")])])]))
      = (Normal {| contentId := "A"; text := "" |}, w')
    /\ (exists lines,
          console w'
          = console (with_content
                       (VObj [("A", VObj [("contentstorage_type", VStr "variation");
                                          ("data", VObj [("a", VStr "x")])])]))
            ++ lines ++ [(Warn, GetVariation_NeitherFound (Some "b") "A")])
    /\ activeContent w'
       = activeContent
           (with_content
              (VObj [("A", VObj [("contentstorage_type", VStr "variation");
                                 ("data", VObj [("a", VStr "x")])])])).
Proof.
  eapply getVariation_nothing_usable.
  - apply walk_resolves. reflexivity.
  - reflexivity.
  - reflexivity.
  - reflexivity.
  - intros vk s [= <-]. discriminate.
Defined.

(** ** What the accessors leave alone *)

Lemma memory_le_refl m : memory_le m m.
Proof. intros key e H. exists e. split; [exact H | auto]. Qed.

Lemma memory_le_trans m1 m2 m3 :
  memory_le m1 m2 -> memory_le m2 m3 -> memory_le m1 m3.
Proof.
  intros H12 H23 key e H.
  destruct (H12 _ _ H) as (e2 & H2 & Hsub2).
  destruct (H23 _ _ H2) as (e3 & H3 & Hsub3).
  exists e3. split; [exact H3 | auto].
Qed.

Lemma set_add_keeps x s id : id ∈ s -> id ∈ set_add x s.
Proof.
  intros H. unfold set_add. destruct (bool_decide (x ∈ s)); [exact H|].
  apply elem_of_app. left. exact H.
Qed.

Lemma set_add_adds x s : x ∈ set_add x s.
Proof.
  unfold set_add. destruct (bool_decide (x ∈ s)) eqn:E.
  - apply bool_decide_eq_true in E. exact E.
  - apply elem_of_app. right. apply list_elem_of_singleton. reflexivity.
Qed.

(** Storing, under a key, an entry that keeps the ids the key already
    had extends the map. *)
Lemma memory_le_map_set key x m :
  (forall e, map_get key m = Some e -> forall id, id ∈ ids e -> id ∈ ids x) ->
  memory_le m (map_set key x m).
Proof.
  induction m as [|[k v] rest IH]; intros Hkeep q e Hq; [discriminate Hq|].
  simpl in Hkeep, Hq |- *. destruct (value_eqb k key) eqn:Ek; simpl.
  - destruct (value_eqb k q) eqn:Eq.
    + injection Hq as <-. exists x. split; [reflexivity|]. apply Hkeep. reflexivity.
    + exists e. split; [exact Hq | auto].
  - destruct (value_eqb k q) eqn:Eq.
    + injection Hq as <-. exists v. split; [reflexivity | auto].
    + apply IH; assumption.
Qed.

Lemma observes_ret {A} (a : A) : observes_only (ret a).
Proof.
  intros w. simpl. repeat split; try (exists []; symmetry; apply app_nil_r).
  apply memory_le_refl.
Qed.

Lemma observes_read {A} (f : World -> A) : observes_only (read f).
Proof.
  intros w. simpl. repeat split; try (exists []; symmetry; apply app_nil_r).
  apply memory_le_refl.
Qed.

Lemma observes_lift {A} (c : completion A) : observes_only (lift c).
Proof.
  intros w. simpl. repeat split; try (exists []; symmetry; apply app_nil_r).
  apply memory_le_refl.
Qed.

Lemma observes_emit l msg : observes_only (emit l msg).
Proof.
  intros w. simpl. repeat split; try (eexists; reflexivity).
  apply memory_le_refl.
Qed.

Lemma observes_emit_all logs : observes_only (emit_all logs).
Proof.
  intros w. simpl. repeat split; try (eexists; reflexivity).
  apply memory_le_refl.
Qed.

Lemma observes_bind {A B} (c : M A) (k : A -> M B) :
  observes_only c -> (forall a, observes_only (k a)) -> observes_only (bind c k).
Proof.
  intros Hc Hk w. specialize (Hc w). unfold bind. cbv zeta in *.
  destruct (c w) as [[a|e] w1]; simpl in Hc; [|exact Hc].
  specialize (Hk a w1). cbv zeta in Hk.
  destruct Hc as (C1 & C2 & C3 & C4 & (l1 & C5) & C6 & C7).
  destruct Hk as (K1 & K2 & K3 & K4 & (l2 & K5) & K6 & K7).
  repeat split; try congruence.
  - exists (l1 ++ l2). rewrite K5, C5, app_assoc. reflexivity.
  - intros Hout. rewrite K6 by congruence. apply C6. exact Hout.
  - eapply memory_le_trans; eassumption.
Qed.

Lemma observes_record_observation key contentId ty var :
  observes_only (record_observation key contentId ty var).
Proof.
  intros w. unfold record_observation, bind, read, ret, set_memoryMap. simpl.
  destruct (in_frame w) eqn:Hf; simpl;
    repeat split; try (exists []; symmetry; apply app_nil_r);
    try discriminate; try apply memory_le_refl; try congruence.
  apply memory_le_map_set. intros e He id Hid. simpl. rewrite He.
  apply set_add_keeps. exact Hid.
Qed.

Lemma observes_populate text0 vars textKey :
  observes_only (populateTextWithVariables text0 vars textKey).
Proof.
  unfold populateTextWithVariables.
  destruct (populateTextWithVariables_pure text0 vars textKey) as [out logs].
  apply observes_bind; [apply observes_emit_all | intros; apply observes_ret].
Qed.

Ltac observes_step :=
  first
    [ apply observes_ret
    | apply observes_read
    | apply observes_lift
    | apply observes_emit
    | apply observes_record_observation
    | apply observes_populate
    | apply observes_bind; [|intros ?]
    | match goal with
      | |- observes_only (match ?x with _ => _ end) => destruct x
      | |- observes_only (if ?x then _ else _) => destruct x
      end ].

Lemma getText_observes path variables : observes_only (getText path variables).
Proof. unfold getText, console_warn. cbv zeta. repeat observes_step. Qed.

Lemma getImage_observes path : observes_only (getImage path).
Proof. unfold getImage, console_warn, console_log. cbv zeta. repeat observes_step. Qed.

Lemma getVariation_fallback_observes path variationKey current vdata :
  observes_only (getVariation_fallback path variationKey current vdata).
Proof.
  unfold getVariation_fallback, console_warn. cbv zeta. repeat observes_step.
Qed.

Lemma getVariation_observes path variationKey variables :
  observes_only (getVariation path variationKey variables).
Proof.
  unfold getVariation, console_warn. cbv zeta.
  repeat observes_step; apply getVariation_fallback_observes.
Qed.

(** X6. The three accessors are readers: whatever they are given, and
    whether they succeed or not, the active content, the configuration
    and the recorded language are as before; console lines are only
    appended; and outside the editor frame the instrumentation map is as
    before too. *)
Theorem accessors_are_readers (w : World) (path : string)
  (variables : option (list (string * value))) (variationKey : option string) :
  forall w',
    w' = snd (getText path variables w)
    \/ w' = snd (getImage path w)
    \/ w' = snd (getVariation path variationKey variables w) ->
    activeContent w' = activeContent w
    /\ appConfig w' = appConfig w
    /\ currentLanguageCode w' = currentLanguageCode w
    /\ (exists lines, console w' = console w ++ lines)
    /\ (in_frame w = false -> memoryMap w' = memoryMap w).
Proof.
  intros w' [-> | [-> | ->]].
  - destruct (getText_observes path variables w) as (H1 & H2 & H3 & _ & H5 & H6 & _).
    repeat split; assumption.
  - destruct (getImage_observes path w) as (H1 & H2 & H3 & _ & H5 & H6 & _).
    repeat split; assumption.
  - destruct (getVariation_observes path variationKey variables w)
      as (H1 & H2 & H3 & _ & H5 & H6 & _).
    repeat split; assumption.
Qed.

Lemma accessors_are_readers_witness :
  let w := initial_world false in
  let w' := snd (getText "a.b" None w) in
  activeContent w' = activeContent w
  /\ appConfig w' = appConfig w
  /\ currentLanguageCode w' = currentLanguageCode w
  /\ (exists lines, console w' = console w ++ lines)
  /\ (in_frame w = false -> memoryMap w' = memoryMap w).
Proof.
  cbv zeta.
  apply (accessors_are_readers (initial_world false) "a.b" None None).
  left. reflexivity.
Defined.

(** X7. The instrumentation map only grows: after any call of an
    accessor every key the map had is still in it, with every content id
    that was recorded under it. *)
Theorem instrumentation_map_grows (w : World) (path : string)
  (variables : option (list (string * value))) (variationKey : option string) :
  memory_le (memoryMap w) (memoryMap (snd (getText path variables w)))
  /\ memory_le (memoryMap w) (memoryMap (snd (getImage path w)))
  /\ memory_le (memoryMap w)
       (memoryMap (snd (getVariation path variationKey variables w))).
Proof.
  split; [|split].
  - apply (getText_observes path variables w).
  - apply (getImage_observes path w).
  - apply (getVariation_observes path variationKey variables w).
Qed.

(** ** What the accessors record inside the editor frame *)

Lemma value_eqb_refl : forall v, value_eqb v v = true.
Proof.
  fix IH 1. intros [| | b | n | s | elems | fields]; simpl; try reflexivity.
  - destruct b; reflexivity.
  - apply Z.eqb_refl.
  - apply String.eqb_refl.
  - induction elems as [|x rest IHrest]; [reflexivity|].
    rewrite (IH x), IHrest. reflexivity.
  - induction fields as [|[k x] rest IHrest]; [reflexivity|].
    rewrite String.eqb_refl, (IH x), IHrest. reflexivity.
Qed.

Lemma map_get_map_set_eq {A} key (x : A) m :
  map_get key (map_set key x m) = Some x.
Proof.
  induction m as [|[k v] rest IH]; simpl.
  - rewrite value_eqb_refl. reflexivity.
  - destruct (value_eqb k key) eqn:E; simpl; rewrite E; [reflexivity | exact IH].
Qed.

Lemma map_get_map_set_other {A} key q (x : A) m :
  (forall k, value_eqb k key = true -> value_eqb k q = false) ->
  value_eqb key q = false ->
  map_get q (map_set key x m) = map_get q m.
Proof.
  intros Hsep Hkq. induction m as [|[k v] rest IH]; simpl.
  - rewrite Hkq. reflexivity.
  - destruct (value_eqb k key) eqn:E; simpl.
    + rewrite (Hsep _ E). reflexivity.
    + destruct (value_eqb k q); [reflexivity | exact IH].
Qed.

(** X8. Inside the editor frame a successful [getText] records the path
    under the string it resolved to: afterwards the instrumentation map
    has an entry for that string, of type text, whose ids contain the
    path. *)
Theorem getText_records_observation (w : World) (path leaf : string)
  (variables : option (list (string * value))) :
  in_frame w = true ->
  resolves (activeContent w) (split_dot path) (VStr leaf) ->
  exists e,
    map_get (VStr leaf) (memoryMap (snd (getText path variables w))) = Some e
    /\ path ∈ ids e
    /\ type e = EText
    /\ variation e = None.
Proof.
  intros Hframe Hres. destruct (resolves_walk _ _ _ Hres) as [Ht Hw].
  unfold getText, bind, read, lift. rewrite Ht, Hw. simpl.
  unfold record_observation, bind, read, ret, set_memoryMap.
  unfold populateTextWithVariables, populateTextWithVariables_pure, bind, ret, emit_all.
  simpl. rewrite Hframe.
  destruct (replace_placeholders (replacer_of (default [] variables) path) leaf)
    as [out logs].
  destruct (no_variables variables); simpl; rewrite map_get_map_set_eq;
    eexists; (split; [reflexivity|]); simpl;
    (split; [apply set_add_adds | split; reflexivity]).
Qed.

Lemma getText_records_observation_witness :
  exists e,
    map_get (VStr "Welcome")
      (memoryMap (snd (getText "HomePage.title" None (with_content sample_tree))))
    = Some e
    /\ "HomePage.title" ∈ ids e /\ type e = EText /\ variation e = None.
Proof.
  apply getText_records_observation.
  - reflexivity.
  - apply walk_resolves. reflexivity.
Defined.



(** X10. Inside the editor frame [getVariation] records the path under
    the string of the requested key, of type variation, together with
    that key. *)
Theorem getVariation_records_requested (w : World) (path vk chosen : string)
  (variables : option (list (string * value)))
  (fields vdata : list (string * value)) :
  in_frame w = true ->
  resolves (activeContent w) (split_dot path) (VObj fields) ->
  assoc "contentstorage_type" fields = Some (VStr "variation") ->
  assoc "data" fields = Some (VObj vdata) ->
  vk <> "" ->
  assoc vk vdata = Some (VStr chosen) ->
  exists e,
    map_get (VStr chosen)
      (memoryMap (snd (getVariation path (Some vk) variables w))) = Some e
    /\ path ∈ ids e
    /\ type e = EVariation
    /\ variation e = Some vk.
Proof.
  intros Hframe Hres Htag Hdata Hne Hvk.
  rewrite (getVariation_on_node w path (Some vk) variables fields vdata Hres Htag Hdata).
  assert (Hnonempty : negb (String.eqb vk "") = true).
  { destruct (String.eqb vk "") eqn:E; [|reflexivity].
    apply String.eqb_eq in E. congruence. }
  rewrite Hnonempty. unfold bind at 1, lift at 1. simpl has_property.
  rewrite (is_Some_decide _ _ Hvk). cbv iota.
  unfold bind at 1, lift at 1. simpl get. rewrite Hvk. simpl default. cbv iota.
  unfold record_observation, bind, read, ret, set_memoryMap.
  unfold populateTextWithVariables, populateTextWithVariables_pure, bind, ret, emit_all.
  simpl. rewrite Hframe.
  destruct (replace_placeholders (replacer_of (default [] variables) path) chosen)
    as [out logs].
  destruct (no_variables variables); simpl; rewrite map_get_map_set_eq;
    eexists; (split; [reflexivity|]); simpl;
    (split; [apply set_add_adds | split; reflexivity]).
Qed.

Lemma getVariation_records_requested_witness :
  exists e,
    map_get (VStr "Go, {name}")
      (memoryMap (snd (getVariation "HomePage.ctaButton" (Some "variantB") None
                         (with_content sample_tree)))) = Some e
    /\ "HomePage.ctaButton" ∈ ids e
    /\ type e = EVariation
    /\ variation e = Some "variantB".
Proof.
  eapply getVariation_records_requested.
  - reflexivity.
  - apply walk_resolves. reflexivity.
  - reflexivity.
  - reflexivity.
  - discriminate.
  - reflexivity.
Defined.

(** X11. On the fallback to the default, [getVariation] stores its
    instrumentation entry under the variation node itself (the variable
    [current] of the enclosing scope), tagged with variation "default";
    the map's entry for the returned default string is left as it was. *)
Theorem getVariation_fallback_records_node (w : World) (path vk dflt : string)
  (variables : option (list (string * value)))
  (fields vdata : list (string * value)) :
  in_frame w = true ->
  resolves (activeContent w) (split_dot path) (VObj fields) ->
  assoc "contentstorage_type" fields = Some (VStr "variation") ->
  assoc "data" fields = Some (VObj vdata) ->
  assoc vk vdata = None ->
  assoc "default" vdata = Some (VStr dflt) ->
  let after := memoryMap (snd (getVariation path (Some vk) variables w)) in
  (exists e,
     map_get (VObj fields) after = Some e
     /\ path ∈ ids e
     /\ type e = EVariation
     /\ variation e = Some "default")
  /\ map_get (VStr dflt) after = map_get (VStr dflt) (memoryMap w).
Proof.
  intros Hframe Hres Htag Hdata Hmiss Hdflt. cbv zeta.
  rewrite (getVariation_on_node w path (Some vk) variables fields vdata Hres Htag Hdata).
  assert (Hfall :
    memoryMap (snd (getVariation_fallback path (Some vk) (VObj fields) (VObj vdata) w))
    = map_set (VObj fields)
        {| ids := set_add path
                    match map_get (VObj fields) (memoryMap w) with
                    | Some e => ids e
                    | None => []
                    end;
           type := EVariation; variation := Some "default" |} (memoryMap w)).
  { unfold getVariation_fallback, bind, lift. simpl has_property.
    rewrite (is_Some_decide _ _ Hdflt). simpl get. rewrite Hdflt. simpl default.
    unfold console_warn, emit, record_observation, bind, read, ret, set_memoryMap.
    destruct (negb (String.eqb vk "") && negb (String.eqb vk "default"));
      simpl; rewrite Hframe; reflexivity. }
  assert (Hrun :
    snd ((do requested <-
            (if negb (String.eqb vk "")
             then lift (has_property vk (VObj vdata)) else ret false);
          match (requested : bool), Some vk with
          | true, Some vk0 =>
              do chosen <- lift (get (VObj vdata) vk0);
              match chosen with
              | VStr c =>
                  record_observation (VStr c) path EVariation (Some vk0) ;;
                  if no_variables variables then
                    ret {| contentId := path; text := c |}
                  else
                    do t <- populateTextWithVariables c (default [] variables) path;
                    ret {| contentId := path; text := t |}
              | other =>
                  console_warn (GetVariation_ValueNotAString vk0 path (typeof other)) ;;
                  getVariation_fallback path (Some vk) (VObj fields) (VObj vdata)
              end
          | _, _ => getVariation_fallback path (Some vk) (VObj fields) (VObj vdata)
          end) w)
    = snd (getVariation_fallback path (Some vk) (VObj fields) (VObj vdata) w)).
  { destruct (negb (String.eqb vk "")); unfold bind at 1; [unfold lift at 1|unfold ret at 1].
    - simpl has_property. rewrite (is_None_decide _ Hmiss). reflexivity.
    - reflexivity. }
  rewrite Hrun, Hfall. split.
  - rewrite map_get_map_set_eq. eexists. split; [reflexivity|]. simpl.
    split; [apply set_add_adds | split; reflexivity].
  - apply map_get_map_set_other; [|reflexivity].
    intros k Hk. destruct k; simpl in Hk |- *; try reflexivity; discriminate.
Qed.

Lemma getVariation_fallback_records_node_witness :
  let w := with_content default_only_tree in
  let node := VObj [("contentstorage_type", VStr "variation");
                    ("data", VObj [("default", VStr "D")])] in
  let after := memoryMap (snd (getVariation "A" (Some "missing") None w)) in
  (exists e,
     map_get node after = Some e
     /\ "A" ∈ ids e /\ type e = EVariation /\ variation e = Some "default")
  /\ map_get (VStr "D") after = map_get (VStr "D") (memoryMap w).
Proof.
  cbv zeta.
  eapply (getVariation_fallback_records_node (with_content default_only_tree)
            "A" "missing" "D" None).
  - reflexivity.
  - apply walk_resolves. reflexivity.
  - reflexivity.
  - reflexivity.
  - reflexivity.
  - reflexivity.
Defined.

(** ** Content Store and Path Resolver together *)

(** X12. What the accessors read is the content of the last successful
    [setContentLanguage], and nothing of what was there before: after the
    call, a path that leads to a string in the new tree gives that string,
    and a path that is absent from the new tree gives the empty text,
    whatever the previous content was. *)
Theorem setContentLanguage_then_getText (w : World) (languageCode tree : value)
  (path : string) :
  tree <> VNull -> typeof tree = TObject ->
  exists w1,
    setContentLanguage languageCode tree w = (Normal tt, w1)
    /\ (forall leaf,
          resolves tree (split_dot path) (VStr leaf) ->
          fst (getText path None w1)
          = Normal {| contentId := path; text := leaf |})
    /\ ((forall leaf, ~ resolves tree (split_dot path) leaf) ->
        fst (getText path None w1) = Normal {| contentId := path; text := "" |}).
Proof.
  intros Hn Ht.
  assert (Htruthy : truthy tree = true)
    by (destruct tree; simpl in *; congruence).
  eexists. split.
  { unfold setContentLanguage. rewrite (object_is_valid _ Hn Ht).
    unfold try_catch. rewrite setContentLanguage_body_completes. reflexivity. }
  split.
  - intros leaf Hres. apply walk_resolves in Hres.
    unfold getText, bind, read, lift. simpl. rewrite Htruthy. simpl. rewrite Hres.
    unfold record_observation, bind, read, ret, set_memoryMap. simpl.
    destruct (in_frame w); reflexivity.
  - intros Habs. apply walk_absent in Habs.
    unfold getText, bind, read, lift. simpl. rewrite Htruthy. simpl. rewrite Habs.
    reflexivity.
Qed.

Lemma setContentLanguage_then_getText_witness :
  exists w1,
    setContentLanguage (VStr "EN") sample_tree (with_content default_only_tree)
      = (Normal tt, w1)
    /\ (forall leaf,
          resolves sample_tree (split_dot "HomePage.title") (VStr leaf) ->
          fst (getText "HomePage.title" None w1)
          = Normal {| contentId := "HomePage.title"; text := leaf |})
    /\ ((forall leaf, ~ resolves sample_tree (split_dot "HomePage.title") leaf) ->
        fst (getText "HomePage.title" None w1)
        = Normal {| contentId := "HomePage.title"; text := "" |}).
Proof.
  apply setContentLanguage_then_getText.
  - discriminate.
  - reflexivity.
Defined.

(** X13. A configuration that is not a plain object is always rejected
    by [initContentStorage], and the state is left as it was.  For [null]
    and [undefined] the rejection is the engine's type error, raised by
    the read of [config.contentKey] inside the failure branch; for every
    other value it is the error that names contentKey. *)
Theorem initContentStorage_rejects_non_objects (config : value) (w : World) :
  (forall fields, config <> VObj fields) ->
  initContentStorage config w
  = (Throw (match config with
            | VNull | VUndefined => TypeError
            | _ => InitNoContentKey
            end), w).
Proof.
  intros Hno. destruct config as [| | b | n | s | elems | fields];
    try reflexivity.
  - unfold initContentStorage, bind, ret, lift, throw. simpl.
    destruct b; reflexivity.
  - unfold initContentStorage, bind, ret, lift, throw. simpl.
    destruct (negb (n =? 0)%Z); reflexivity.
  - unfold initContentStorage, bind, ret, lift, throw. simpl.
    destruct (negb (String.eqb s "")); reflexivity.
  - destruct (Hno fields). reflexivity.
Qed.

Lemma initContentStorage_rejects_non_objects_witness :
  initContentStorage VNull (initial_world false)
  = (Throw TypeError, initial_world false).
Proof.
  apply (initContentStorage_rejects_non_objects VNull (initial_world false)).
  intros fields. discriminate.
Defined.

(** ** Variable Interpolator: texts it returns unchanged *)

Lemma no_open_brace_no_match c rest :
  negb (Ascii.eqb c "{") = true -> match_placeholder (String c rest) = None.
Proof.
  intros H. unfold match_placeholder.
  destruct c as [[] [] [] [] [] [] [] []]; try reflexivity; discriminate H.
Qed.

Lemma replace_placeholders_no_brace replacer text :
  no_open_brace text = true ->
  replace_placeholders replacer text = (text, []).
Proof.
  induction text as [|c rest IH]; intros H.
  - simp replace_placeholders. reflexivity.
  - simpl in H. apply andb_true_iff in H as [Hc Hrest].
    rewrite replace_placeholders_String, (no_open_brace_no_match _ _ Hc), (IH Hrest).
    reflexivity.
Qed.

(** X14. A text without an opening brace goes through
    [populateTextWithVariables] untouched, whatever the variables: the
    result is the text and nothing is written to the console. *)
Theorem populateTextWithVariables_plain_text (text : string)
  (variables : list (string * value)) (textKey : string) (w : World) :
  no_open_brace text = true ->
  fst (populateTextWithVariables text variables textKey w) = Normal text
  /\ console (snd (populateTextWithVariables text variables textKey w)) = console w.
Proof.
  intros H. unfold populateTextWithVariables, populateTextWithVariables_pure.
  rewrite (replace_placeholders_no_brace _ _ H).
  unfold bind, emit_all, ret. simpl. split; [reflexivity | apply app_nil_r].
Qed.

Lemma populateTextWithVariables_plain_text_witness :
  fst (populateTextWithVariables "Hello }world" [("world", VStr "x")] "k"
         (initial_world false)) = Normal "Hello }world"
  /\ console (snd (populateTextWithVariables "Hello }world" [("world", VStr "x")] "k"
                     (initial_world false)))
     = console (initial_world false).
Proof.
  apply populateTextWithVariables_plain_text. reflexivity.
Defined.

Lemma replace_placeholders_no_variables textKey :
  forall n text, String.length text <= n ->
  fst (replace_placeholders (replacer_of [] textKey) text) = text.
Proof.
  induction n as [|n IH]; intros text Hlen.
  - destruct text; [|simpl in Hlen; lia]. simp replace_placeholders. reflexivity.
  - destruct text as [|c rest]; [simp replace_placeholders; reflexivity|].
    rewrite replace_placeholders_String.
    destruct (match_placeholder (String c rest)) as [[name after]|] eqn:Hm.
    + pose proof (match_placeholder_shorter _ _ _ Hm) as Hshort.
      apply match_placeholder_Some in Hm as [_ Heq].
      specialize (IH after ltac:(simpl in *; lia)).
      destruct (replace_placeholders (replacer_of [] textKey) after) as [out logs].
      simpl in IH. subst out. unfold replacer_of. simpl. symmetry. exact Heq.
    + specialize (IH rest ltac:(simpl in *; lia)).
      destruct (replace_placeholders (replacer_of [] textKey) rest) as [out logs].
      simpl in IH. subst out. reflexivity.
Qed.

(** X15. With an empty variables mapping [populateTextWithVariables]
    returns every text exactly as it was given, placeholders included. *)
Theorem populateTextWithVariables_no_variables (text textKey : string) (w : World) :
  fst (populateTextWithVariables text [] textKey w) = Normal text.
Proof.
  pose proof (replace_placeholders_no_variables textKey
                (String.length text) text (le_n _)) as H.
  unfold populateTextWithVariables, populateTextWithVariables_pure.
  destruct (replace_placeholders (replacer_of [] textKey) text) as [out logs].
  simpl in H. subst out. reflexivity.
Qed.

(** ** Splitting a path *)

Lemma split_dot_cons s : exists seg segs, split_dot s = seg :: segs.
Proof.
  destruct (split_dot s) as [|seg segs] eqn:E; [|eauto].
  destruct (split_dot_nonempty s E).
Qed.

Lemma join_dot_cons seg seg' rest :
  join_dot (seg :: seg' :: rest) = seg +:+ "." +:+ join_dot (seg' :: rest).
Proof. reflexivity. Qed.

(** The keys an accessor looks up are the dot-separated segments of
    the path: none of them contains a dot, so a key with a dot in it can
    never be addressed, and joining them with dots gives the path back. *)
Theorem split_dot_segments (path : string) :
  Forall (fun seg => dot_free seg = true) (split_dot path)
  /\ join_dot (split_dot path) = path.
Proof.
  induction path as [|c rest [IHfree IHjoin]]; simpl.
  - split; [repeat constructor | reflexivity].
  - destruct (split_dot_cons rest) as (seg & segs & E). rewrite E in *.
    destruct (Ascii.eqb c ".") eqn:Ec.
    + apply Ascii.eqb_eq in Ec. subst c. split.
      * constructor; [reflexivity | exact IHfree].
      * rewrite join_dot_cons, IHjoin. reflexivity.
    + inversion IHfree as [|? ? Hseg Hsegs]; subst. split.
      * constructor; [simpl; rewrite Ec, Hseg; reflexivity | exact Hsegs].
      * destruct segs as [|seg' segs'].
        -- reflexivity.
        -- rewrite !join_dot_cons. rewrite append_String. reflexivity.
Qed.

(** ** Fetch Coordinator: the synchronous part of [fetchContent] *)

Lemma fetchContent_draft language withPendingChanges contentKey c :
  truthy (resolved_language language c) = true ->
  truthy (appConfig (world c)) = true ->
  truthy (resolved_mode withPendingChanges c) = true ->
  truthy (resolved_content_key contentKey c) = true ->
  fetchContent language withPendingChanges contentKey c
  = (fresh c,
     schedule_draft (fresh c) (resolved_language language c)
       (resolved_content_key contentKey c) (entered language c)).
Proof.
  unfold resolved_language, resolved_mode, resolved_content_key.
  intros Hl Hc Hm Hk.
  unfold fetchContent, entered. unfold allocate at 1 2. cbv beta iota zeta.
  unfold in_world, console_log, emit. cbv beta iota zeta. simpl.
  rewrite Hl, Hc, Hm, Hk. reflexivity.
Qed.

Lemma fetchContent_cdn language withPendingChanges contentKey c :
  truthy (resolved_language language c) = true ->
  truthy (appConfig (world c)) = true ->
  truthy (resolved_mode withPendingChanges c) = false ->
  let target := CdnUrl (to_String (resolved_content_key contentKey c))
                       (to_String (resolved_language language c)) in
  fetchContent language withPendingChanges contentKey c
  = (fresh c,
     issue (S (fresh c))
       (CdnCall target (resolved_language language c)
          (resolved_mode withPendingChanges c) (fresh c))
       target (snd (allocate (entered language c)))).
Proof.
  unfold resolved_language, resolved_mode, resolved_content_key.
  intros Hl Hc Hm. cbv zeta.
  unfold fetchContent, entered. unfold allocate at 1 3. cbv beta iota zeta.
  unfold in_world, console_log, emit. cbv beta iota zeta. simpl.
  rewrite Hl, Hc, Hm. reflexivity.
Qed.

(** X16. Before [initContentStorage] has stored a configuration every
    call of [fetchContent] fails at once: its promise is rejected, with
    "No language found" when no language was passed and with "No app
    config found" when one was; no timer is armed, no network call is
    issued and the store is not touched. *)
Theorem fetchContent_before_init (language withPendingChanges contentKey : value)
  (c : Coordinator) :
  appConfig (world c) = VNull ->
  let result := fetchContent language withPendingChanges contentKey c in
  fst result = fresh c
  /\ promises (snd result) !! fresh c
     = Some (Rejected (if truthy language then NoAppConfigFound else NoLanguageFound))
  /\ timers (snd result) = timers c
  /\ calls (snd result) = calls c
  /\ network (snd result) = network c
  /\ debounceTimers (snd result) = debounceTimers c
  /\ activeContent (world (snd result)) = activeContent (world c).
Proof.
  intros Hcfg. cbv zeta.
  unfold fetchContent. unfold allocate at 1 2. cbv beta iota zeta.
  unfold in_world, console_log, emit. cbv beta iota zeta. simpl.
  rewrite Hcfg. simpl. unfold js_or.
  destruct (truthy language) eqn:Hl; simpl; try rewrite Hl; simpl;
    unfold settle; simpl; rewrite lookup_insert_eq; simpl;
    rewrite lookup_insert_eq; repeat split.
Qed.

Lemma fetchContent_before_init_witness :
  let result := fetchContent (VStr "EN") VUndefined VUndefined
                  (initial_coordinator false) in
  fst result = fresh (initial_coordinator false)
  /\ promises (snd result) !! fresh (initial_coordinator false)
     = Some (Rejected (if truthy (VStr "EN") then NoAppConfigFound else NoLanguageFound))
  /\ timers (snd result) = timers (initial_coordinator false)
  /\ calls (snd result) = calls (initial_coordinator false)
  /\ network (snd result) = network (initial_coordinator false)
  /\ debounceTimers (snd result) = debounceTimers (initial_coordinator false)
  /\ activeContent (world (snd result))
     = activeContent (world (initial_coordinator false)).
Proof.
  apply (fetchContent_before_init (VStr "EN") VUndefined VUndefined
           (initial_coordinator false)).
  reflexivity.
Defined.

Lemma superseded_deregisters key c :
  cancelTokenSources (superseded key c) !! key = None
  /\ debounceTimers (superseded key c) !! key = None.
Proof.
  unfold superseded.
  set (c1 := match cancelTokenSources c !! key with
             | Some src => with_cancelTokenSources _ (cancel src c)
             | None => c end).
  assert (H1 : cancelTokenSources c1 !! key = None).
  { subst c1. destruct (cancelTokenSources c !! key) as [src|] eqn:E; [|exact E].
    simpl. apply lookup_delete_eq. }
  clearbody c1. destruct (debounceTimers c1 !! key) as [t|] eqn:E; simpl.
  - split; [exact H1 | apply lookup_delete_eq].
  - split; assumption.
Qed.

Lemma schedule_draft_facts p language key c :
  let c1 := schedule_draft p language key c in
  timers c1 !! fresh c = Some (draft_closure p language key)
  /\ debounceTimers c1 !! request_key language key = Some (fresh c)
  /\ cancelTokenSources c1 !! request_key language key = None
  /\ promises c1 = promises c
  /\ fresh c1 = S (fresh c)
  /\ network c1 = network c
  /\ world c1 = world c.
Proof.
  cbv zeta. rewrite schedule_draft_superseded. cbv zeta. simpl.
  destruct (superseded_fields (request_key language key) c) as (Hp & Hf & Hn & Hw).
  destruct (superseded_deregisters (request_key language key) c) as (Hc & _).
  rewrite Hf, Hp, Hn, Hw.
  split; [apply lookup_insert_eq|]. split; [apply lookup_insert_eq|].
  split; [exact Hc|]. repeat split.
Qed.

(** X17. A call of [fetchContent] that resolves to draft mode issues no
    network call: it arms one timer, registers it under the request key,
    leaves no cancel token registered under that key, and returns a
    pending promise; the store is not touched. *)
Theorem draft_invocation_only_schedules
  (language withPendingChanges contentKey : value) (c : Coordinator) :
  truthy (resolved_language language c) = true ->
  truthy (appConfig (world c)) = true ->
  truthy (resolved_mode withPendingChanges c) = true ->
  truthy (resolved_content_key contentKey c) = true ->
  let l := resolved_language language c in
  let k := resolved_content_key contentKey c in
  let c1 := snd (fetchContent language withPendingChanges contentKey c) in
  network c1 = network c
  /\ timers c1 !! S (fresh c) = Some (draft_closure (fresh c) l k)
  /\ debounceTimers c1 !! request_key l k = Some (S (fresh c))
  /\ cancelTokenSources c1 !! request_key l k = None
  /\ promises c1 !! fresh c = Some Pending
  /\ activeContent (world c1) = activeContent (world c).
Proof.
  intros Hl Hc Hm Hk. cbv zeta.
  rewrite (fetchContent_draft _ _ _ _ Hl Hc Hm Hk). simpl snd.
  destruct (schedule_draft_facts (fresh c) (resolved_language language c)
              (resolved_content_key contentKey c) (entered language c))
    as (H1 & H2 & H3 & H4 & H5 & H6 & H7).
  rewrite H6, H4, H7. simpl in H1, H2 |- *.
  split; [reflexivity|]. split; [exact H1|]. split; [exact H2|].
  split; [exact H3|]. split; [apply lookup_insert_eq | reflexivity].
Qed.

Lemma draft_invocation_only_schedules_witness :
  let c := configured draft_config in
  let c1 := snd (fetchContent VUndefined VUndefined VUndefined c) in
  network c1 = network c
  /\ timers c1 !! S (fresh c)
     = Some (draft_closure (fresh c) (resolved_language VUndefined c)
               (resolved_content_key VUndefined c))
  /\ debounceTimers c1 !! request_key (resolved_language VUndefined c)
                            (resolved_content_key VUndefined c)
     = Some (S (fresh c))
  /\ cancelTokenSources c1 !! request_key (resolved_language VUndefined c)
                                (resolved_content_key VUndefined c) = None
  /\ promises c1 !! fresh c = Some Pending
  /\ activeContent (world c1) = activeContent (world c).
Proof.
  apply (draft_invocation_only_schedules VUndefined VUndefined VUndefined
           (configured draft_config)); reflexivity.
Defined.

(** X18. A call of [fetchContent] that resolves to CDN mode issues its
    network call at once, to the URL built from the content key and the
    language; it arms no timer and touches neither registry. *)
Theorem cdn_invocation_issues_at_once
  (language withPendingChanges contentKey : value) (c : Coordinator) :
  truthy (resolved_language language c) = true ->
  truthy (appConfig (world c)) = true ->
  truthy (resolved_mode withPendingChanges c) = false ->
  let l := resolved_language language c in
  let k := resolved_content_key contentKey c in
  let target := CdnUrl (to_String k) (to_String l) in
  let c1 := snd (fetchContent language withPendingChanges contentKey c) in
  network c1 = network c ++ [(fresh c, target)]
  /\ calls c1 !! S (fresh c)
     = Some (CdnCall target l (resolved_mode withPendingChanges c) (fresh c))
  /\ timers c1 = timers c
  /\ debounceTimers c1 = debounceTimers c
  /\ cancelTokenSources c1 = cancelTokenSources c
  /\ promises c1 !! fresh c = Some Pending.
Proof.
  intros Hl Hc Hm. cbv zeta.
  rewrite (fetchContent_cdn _ _ _ _ Hl Hc Hm). simpl.
  split; [reflexivity|]. split; [apply lookup_insert_eq|].
  repeat split. apply lookup_insert_eq.
Qed.

Lemma cdn_invocation_issues_at_once_witness :
  let c := configured cdn_config in
  let l := resolved_language (VStr "FR") c in
  let k := resolved_content_key VUndefined c in
  let target := CdnUrl (to_String k) (to_String l) in
  let c1 := snd (fetchContent (VStr "FR") VUndefined VUndefined c) in
  network c1 = network c ++ [(fresh c, target)]
  /\ calls c1 !! S (fresh c)
     = Some (CdnCall target l (resolved_mode VUndefined c) (fresh c))
  /\ timers c1 = timers c
  /\ debounceTimers c1 = debounceTimers c
  /\ cancelTokenSources c1 = cancelTokenSources c
  /\ promises c1 !! fresh c = Some Pending.
Proof.
  apply (cdn_invocation_issues_at_once (VStr "FR") VUndefined VUndefined
           (configured cdn_config)); reflexivity.
Defined.

(** ** Fetch Coordinator: the timer callback and what follows the await *)

Lemma timer_fires_facts timer closure c :
  timers c !! timer = Some closure ->
  let c2 := step (TimerFires timer) c in
  calls c2 !! fresh c = Some (DraftCall closure false)
  /\ cancelTokenSources c2 !! requestKey closure = Some (fresh c)
  /\ debounceTimers c2 !! requestKey closure = None
  /\ timers c2 !! timer = None
  /\ promises c2 = promises c
  /\ world c2 = world c
  /\ network c2 = network c ++ [(promise closure, fileUrl closure)]
  /\ fresh c2 = S (fresh c).
Proof.
  intros Ht. cbv zeta. simpl. rewrite Ht.
  unfold timer_callback, allocate. cbv beta iota zeta. simpl.
  split; [apply lookup_insert_eq|]. split; [apply lookup_insert_eq|].
  split; [apply lookup_delete_eq|]. split; [apply lookup_delete_eq|].
  repeat split.
Qed.

(** X19. When an armed debounce timer fires, its callback issues exactly
    one network call, to the draft URL it closed over and on behalf of
    its promise; it registers the call's cancel token under the request
    key and removes the timer's own registration.  Promises and store are
    as before. *)
Theorem timer_callback_issues_call (timer : nat) (closure : Closure) (c : Coordinator) :
  timers c !! timer = Some closure ->
  let c2 := step (TimerFires timer) c in
  network c2 = network c ++ [(promise closure, fileUrl closure)]
  /\ calls c2 !! fresh c = Some (DraftCall closure false)
  /\ cancelTokenSources c2 !! requestKey closure = Some (fresh c)
  /\ debounceTimers c2 !! requestKey closure = None
  /\ timers c2 !! timer = None
  /\ promises c2 = promises c
  /\ world c2 = world c.
Proof.
  intros Ht. destruct (timer_fires_facts timer closure c Ht)
    as (H1 & H2 & H3 & H4 & H5 & H6 & H7 & _).
  cbv zeta. repeat split; assumption.
Qed.

Lemma timer_callback_issues_call_witness :
  let c := snd (fetchContent VUndefined VUndefined VUndefined (configured draft_config)) in
  let closure := draft_closure 1 (VStr "EN") (VStr "my-key") in
  let c2 := step (TimerFires 2) c in
  network c2 = network c ++ [(promise closure, fileUrl closure)]
  /\ calls c2 !! fresh c = Some (DraftCall closure false)
  /\ cancelTokenSources c2 !! requestKey closure = Some (fresh c)
  /\ debounceTimers c2 !! requestKey closure = None
  /\ timers c2 !! 2 = None
  /\ promises c2 = promises c
  /\ world c2 = world c.
Proof.
  apply (timer_callback_issues_call 2 (draft_closure 1 (VStr "EN") (VStr "my-key"))).
  vm_compute. reflexivity.
Defined.

Lemma draft_try_block_stores language body w :
  is_container (envelope_payload body) = true ->
  draft_try_block language body w
  = (Normal tt, stored language (envelope_payload body) w).
Proof.
  intros Hc. unfold draft_try_block, stored, bind, lift, ret.
  destruct body as [| | b | n | s | elems | fields]; simpl in Hc; try discriminate.
  - simpl. unfold console_log, emit, setContentLanguage, try_catch,
      setContentLanguage_body, set_activeContent, set_currentLanguageCode, bind.
    simpl. rewrite <- app_assoc. reflexivity.
  - simpl. destruct (assoc "data" fields) as [d|] eqn:Hd; simpl in Hc |- *.
    + try rewrite (is_Some_decide _ _ eq_refl).
      destruct d; simpl in Hc; try discriminate; simpl;
        unfold console_log, emit, setContentLanguage, try_catch,
          setContentLanguage_body, set_activeContent, set_currentLanguageCode, bind;
        simpl; rewrite <- app_assoc; reflexivity.
    + try rewrite (is_None_decide _ eq_refl). simpl.
      unfold console_log, emit, setContentLanguage, try_catch,
        setContentLanguage_body, set_activeContent, set_currentLanguageCode, bind.
      simpl. rewrite <- app_assoc. reflexivity.
Qed.

Lemma cdn_try_block_stores language mode body w :
  truthy mode = false -> is_container body = true ->
  cdn_try_block language mode body w = (Normal tt, stored language body w).
Proof.
  intros Hm Hc. unfold cdn_try_block, stored, bind, lift, ret. rewrite Hm. simpl.
  destruct body; simpl in Hc; try discriminate; simpl;
    unfold console_log, emit, setContentLanguage, try_catch,
      setContentLanguage_body, set_activeContent, set_currentLanguageCode, bind;
    simpl; rewrite <- app_assoc; reflexivity.
Qed.

Lemma draft_try_block_throws language body e w :
  draft_outcome_error (Response body) = Some e ->
  draft_try_block language body w = (Throw e, w).
Proof.
  unfold draft_outcome_error, draft_try_block, bind, lift, ret, throw.
  destruct body as [| | b | n | s | elems | fields]; simpl;
    try (intros [= <-]; rewrite ?andb_false_r; reflexivity);
    try discriminate.
  destruct (assoc "data" fields) as [d|] eqn:Hd; simpl.
  - try rewrite (is_Some_decide _ _ eq_refl).
    destruct d; simpl; try (intros [= <-]; reflexivity); discriminate.
  - discriminate.
Qed.

Lemma draft_response_facts token closure body c :
  calls c !! token = Some (DraftCall closure false) ->
  promises c !! promise closure = Some Pending ->
  is_container (envelope_payload body) = true ->
  let c3 := step (OutcomeArrives token (Response body)) c in
  world c3 = stored (languageToFetch closure) (envelope_payload body) (world c)
  /\ promises c3 !! promise closure = Some Resolved
  /\ cancelTokenSources c3 !! requestKey closure = None
  /\ calls c3 !! token = None
  /\ debounceTimers c3 = debounceTimers c
  /\ network c3 = network c.
Proof.
  intros Hcall Hp Hc. cbv zeta. simpl. rewrite Hcall.
  unfold draft_continuation, in_world, bind, lift, awaited. simpl.
  rewrite (draft_try_block_stores _ _ _ Hc). simpl.
  unfold settle. simpl. rewrite Hp. simpl.
  split; [reflexivity|]. split; [apply lookup_insert_eq|].
  split; [apply lookup_delete_eq|]. split; [apply lookup_delete_eq|].
  split; reflexivity.
Qed.

(** X20. A draft fetch from start to end.  The call resolves to draft
    mode, its timer fires, and the response arrives with a body whose
    payload (the [data] field when the body is an envelope, else the body)
    is an object.  Then the payload is the active content, the resolved
    language is the recorded language, the promise is resolved, one
    network call was issued, to the draft URL of that language, and both
    registries are empty for the request key again. *)
Theorem draft_fetch_completes
  (language withPendingChanges contentKey body : value) (c : Coordinator) :
  truthy (resolved_language language c) = true ->
  truthy (appConfig (world c)) = true ->
  truthy (resolved_mode withPendingChanges c) = true ->
  truthy (resolved_content_key contentKey c) = true ->
  is_container (envelope_payload body) = true ->
  let l := resolved_language language c in
  let k := resolved_content_key contentKey c in
  let final :=
    run_events [Invoke language withPendingChanges contentKey;
                TimerFires (S (fresh c));
                OutcomeArrives (S (S (fresh c))) (Response body)] c in
  activeContent (world final) = envelope_payload body
  /\ currentLanguageCode (world final) = l
  /\ promises final !! fresh c = Some Resolved
  /\ network final = network c ++ [(fresh c, DraftUrl (to_String l))]
  /\ debounceTimers final !! request_key l k = None
  /\ cancelTokenSources final !! request_key l k = None.
Proof.
  intros Hl Hc Hm Hk Hbody. cbv zeta. unfold run_events. cbn [fold_left].
  change (step (Invoke language withPendingChanges contentKey) c)
    with (snd (fetchContent language withPendingChanges contentKey c)).
  rewrite (fetchContent_draft _ _ _ _ Hl Hc Hm Hk). cbn [snd].
  set (l := resolved_language language c).
  set (k := resolved_content_key contentKey c).
  destruct (schedule_draft_facts (fresh c) l k (entered language c))
    as (S1 & S2 & S3 & S4 & S5 & S6 & S7).
  set (c1 := schedule_draft (fresh c) l k (entered language c)) in *.
  change (fresh (entered language c)) with (S (fresh c)) in S1, S2, S5.
  destruct (timer_fires_facts _ _ c1 S1) as (T1 & T2 & T3 & T4 & T5 & T6 & T7 & T8).
  set (c2 := step (TimerFires (S (fresh c))) c1) in *.
  rewrite S5 in T1, T2.
  assert (Hp : promises c2 !! promise (draft_closure (fresh c) l k) = Some Pending).
  { rewrite T5, S4. simpl. apply lookup_insert_eq. }
  destruct (draft_response_facts _ _ body c2 T1 Hp Hbody)
    as (R1 & R2 & R3 & R4 & R5 & R6).
  set (c3 := step (OutcomeArrives (S (S (fresh c))) (Response body)) c2) in *.
  rewrite R1. simpl in R2, R3, T3 |- *.
  split; [reflexivity|]. split; [reflexivity|]. split; [exact R2|].
  split; [rewrite R6, T7, S6; reflexivity|].
  split; [rewrite R5; exact T3 | exact R3].
Qed.

Lemma draft_fetch_completes_witness :
  let c := configured draft_config in
  let body := VObj [("data", VObj [("A", VStr "v")])] in
  let l := resolved_language VUndefined c in
  let k := resolved_content_key VUndefined c in
  let final :=
    run_events [Invoke VUndefined VUndefined VUndefined;
                TimerFires (S (fresh c));
                OutcomeArrives (S (S (fresh c))) (Response body)] c in
  activeContent (world final) = envelope_payload body
  /\ currentLanguageCode (world final) = l
  /\ promises final !! fresh c = Some Resolved
  /\ network final = network c ++ [(fresh c, DraftUrl (to_String l))]
  /\ debounceTimers final !! request_key l k = None
  /\ cancelTokenSources final !! request_key l k = None.
Proof.
  apply (draft_fetch_completes VUndefined VUndefined VUndefined
           (VObj [("data", VObj [("A", VStr "v")])]) (configured draft_config));
    reflexivity.
Defined.

(** X21. A CDN fetch from start to end.  The call resolves to CDN mode
    and the response arrives with an object as its body.  Then that body,
    whole, is the active content, also when it has a [data] field: the
    envelope is only opened in draft mode.  The resolved language is
    recorded and the promise is resolved. *)
Theorem cdn_fetch_completes
  (language withPendingChanges contentKey body : value) (c : Coordinator) :
  truthy (resolved_language language c) = true ->
  truthy (appConfig (world c)) = true ->
  truthy (resolved_mode withPendingChanges c) = false ->
  is_container body = true ->
  let final :=
    run_events [Invoke language withPendingChanges contentKey;
                OutcomeArrives (S (fresh c)) (Response body)] c in
  activeContent (world final) = body
  /\ currentLanguageCode (world final) = resolved_language language c
  /\ promises final !! fresh c = Some Resolved
  /\ console (world final)
     = console (world c)
       ++ [(Log, Fetch_Starting language);
           (Log, Fetch_ReceivedJson (resolved_language language c));
           (Log, ContentLoaded)].
Proof.
  intros Hl Hc Hm Hbody. cbv zeta. unfold run_events. cbn [fold_left].
  change (step (Invoke language withPendingChanges contentKey) c)
    with (snd (fetchContent language withPendingChanges contentKey c)).
  rewrite (fetchContent_cdn _ _ _ _ Hl Hc Hm). cbn [snd].
  unfold step. simpl calls. rewrite lookup_insert_eq.
  unfold cdn_continuation, in_world, try_catch, bind, lift, awaited. simpl.
  rewrite (cdn_try_block_stores _ _ _ _ Hm Hbody). simpl.
  unfold settle. simpl. rewrite lookup_insert_eq. simpl.
  split; [reflexivity|]. split; [reflexivity|].
  split; [apply lookup_insert_eq|].
  rewrite <- app_assoc. reflexivity.
Qed.

Lemma cdn_fetch_completes_witness :
  let c := configured cdn_config in
  let body := VObj [("data", VObj [("A", VStr "v")])] in
  let final :=
    run_events [Invoke VUndefined VUndefined VUndefined;
                OutcomeArrives (S (fresh c)) (Response body)] c in
  activeContent (world final) = body
  /\ currentLanguageCode (world final) = resolved_language VUndefined c
  /\ promises final !! fresh c = Some Resolved
  /\ console (world final)
     = console (world c)
       ++ [(Log, Fetch_Starting VUndefined);
           (Log, Fetch_ReceivedJson (resolved_language VUndefined c));
           (Log, ContentLoaded)].
Proof.
  apply (cdn_fetch_completes VUndefined VUndefined VUndefined
           (VObj [("data", VObj [("A", VStr "v")])]) (configured cdn_config));
    reflexivity.
Defined.

(** X22. How a draft call fails.  When the transport fails, or the
    payload of the response is [null], [undefined] or a primitive, the
    promise of the call is rejected with the corresponding error, the
    active content and the recorded language stay as they were, error
    lines (and nothing else) are appended to the console, and the cancel
    token of the request key is deregistered. *)
Theorem draft_fetch_fails (token : nat) (closure : Closure) (o : outcome)
  (e : exn) (c : Coordinator) :
  calls c !! token = Some (DraftCall closure false) ->
  promises c !! promise closure = Some Pending ->
  draft_outcome_error o = Some e ->
  let c' := step (OutcomeArrives token o) c in
  promises c' !! promise closure = Some (Rejected e)
  /\ activeContent (world c') = activeContent (world c)
  /\ currentLanguageCode (world c') = currentLanguageCode (world c)
  /\ cancelTokenSources c' !! requestKey closure = None
  /\ (exists lines,
        console (world c') = console (world c) ++ lines
        /\ Forall (fun line => fst line = Error) lines).
Proof.
  intros Hcall Hp Herr. cbv zeta. simpl. rewrite Hcall.
  unfold draft_continuation, in_world, bind, lift, awaited.
  change (world (with_calls (delete token (calls c)) c)) with (world c).
  destruct o as [body | status responseData].
  - cbv beta iota.
    rewrite (draft_try_block_throws (languageToFetch closure) body e (world c) Herr).
    assert (He : e = NoDataReceived \/ exists t, e = ExpectedJsonObject t).
    { unfold draft_outcome_error in Herr.
      destruct (envelope_payload body); try discriminate;
        injection Herr as <-; eauto. }
    destruct He as [-> | [t ->]];
      unfold log_fetch_error, console_error, emit, bind; simpl;
      unfold settle; simpl; rewrite Hp; simpl;
      (split; [apply lookup_insert_eq|]); (split; [reflexivity|]);
      (split; [reflexivity|]); (split; [apply lookup_delete_eq|]);
      eexists; (split; [rewrite <- app_assoc; reflexivity|]);
      repeat constructor.
  - simpl in Herr. injection Herr as <-.
    unfold log_fetch_error, console_error, emit, bind. simpl.
    unfold settle. simpl. rewrite Hp. simpl.
    split; [apply lookup_insert_eq|]. split; [reflexivity|].
    split; [reflexivity|]. split; [apply lookup_delete_eq|].
    eexists. split; [rewrite <- !app_assoc; reflexivity|].
    repeat constructor.
Qed.

Lemma draft_fetch_fails_witness :
  let c := run_events [Invoke VUndefined VUndefined VUndefined; TimerFires 2]
             (configured draft_config) in
  let closure := draft_closure 1 (VStr "EN") (VStr "my-key") in
  let c' := step (OutcomeArrives 3 (Response (VObj [("data", VNull)]))) c in
  promises c' !! promise closure = Some (Rejected NoDataReceived)
  /\ activeContent (world c') = activeContent (world c)
  /\ currentLanguageCode (world c') = currentLanguageCode (world c)
  /\ cancelTokenSources c' !! requestKey closure = None
  /\ (exists lines,
        console (world c') = console (world c) ++ lines
        /\ Forall (fun line => fst line = Error) lines).
Proof.
  apply (draft_fetch_fails 3 (draft_closure 1 (VStr "EN") (VStr "my-key"))
           (Response (VObj [("data", VNull)])) NoDataReceived).
  - vm_compute. reflexivity.
  - vm_compute. reflexivity.
  - reflexivity.
Defined.

(** X23. The promise of a CDN call is never rejected: whatever the
    outcome of the network call, it is resolved.  The store is written
    only when the body is an object, and then with that body; after a
    transport failure or any other body the active content and the
    recorded language stay as they were. *)
Theorem cdn_fetch_never_rejects (token p : nat) (target : url)
  (language mode : value) (o : outcome) (c : Coordinator) :
  calls c !! token = Some (CdnCall target language mode p) ->
  promises c !! p = Some Pending ->
  truthy mode = false ->
  let c' := step (OutcomeArrives token o) c in
  promises c' !! p = Some Resolved
  /\ match o with
     | Response body =>
         if is_container body
         then activeContent (world c') = body
              /\ currentLanguageCode (world c') = language
         else activeContent (world c') = activeContent (world c)
              /\ currentLanguageCode (world c') = currentLanguageCode (world c)
     | Failure _ _ =>
         activeContent (world c') = activeContent (world c)
         /\ currentLanguageCode (world c') = currentLanguageCode (world c)
     end.
Proof.
  intros Hcall Hp Hm. cbv zeta. simpl. rewrite Hcall.
  unfold cdn_continuation, in_world, try_catch, bind, lift, awaited.
  change (world (with_calls (delete token (calls c)) c)) with (world c).
  destruct o as [body | status responseData].
  - destruct (is_container body) eqn:Hc.
    + cbv beta iota. rewrite (cdn_try_block_stores _ _ _ _ Hm Hc). simpl.
      unfold settle. simpl. rewrite Hp. simpl.
      split; [apply lookup_insert_eq | split; reflexivity].
    + unfold cdn_try_block, bind, ret, lift, throw. rewrite Hm. simpl.
      destruct body; simpl in Hc; try discriminate; simpl;
        unfold settle; simpl; rewrite Hp; simpl;
        (split; [apply lookup_insert_eq | split; reflexivity]).
  - simpl. unfold settle. simpl. rewrite Hp. simpl.
    split; [apply lookup_insert_eq | split; reflexivity].
Qed.

Lemma cdn_fetch_never_rejects_witness :
  let c := run_events [Invoke VUndefined VUndefined VUndefined] (configured cdn_config) in
  let c' := step (OutcomeArrives 2 (Failure (VNum 500) VNull)) c in
  promises c' !! 1 = Some Resolved
  /\ (activeContent (world c') = activeContent (world c)
      /\ currentLanguageCode (world c') = currentLanguageCode (world c)).
Proof.
  apply (cdn_fetch_never_rejects 2 1 (CdnUrl "my-key" "EN") (VStr "EN") VUndefined
           (Failure (VNum 500) VNull)).
  - vm_compute. reflexivity.
  - vm_compute. reflexivity.
  - reflexivity.
Defined.

(** ** Fetch Coordinator: cancelling a call that is in flight *)

Lemma superseded_cancels key token closure c :
  cancelTokenSources c !! key = Some token ->
  calls c !! token = Some (DraftCall closure false) ->
  calls (superseded key c) !! token = Some (DraftCall closure true).
Proof.
  intros Hsrc Hcall. unfold superseded. rewrite Hsrc.
  unfold cancel. rewrite Hcall. simpl.
  destruct (debounceTimers c !! key); simpl; apply lookup_insert_eq.
Qed.

(** X24. A draft invocation cancels the call that is in flight for the
    same request key: the call whose cancel token is registered under the
    key is marked cancelled, and the token is deregistered.  No network
    call is issued by the invocation itself. *)
Theorem draft_invocation_cancels_in_flight
  (language withPendingChanges contentKey : value) (token : nat)
  (closure : Closure) (c : Coordinator) :
  truthy (resolved_language language c) = true ->
  truthy (appConfig (world c)) = true ->
  truthy (resolved_mode withPendingChanges c) = true ->
  truthy (resolved_content_key contentKey c) = true ->
  let key := request_key (resolved_language language c)
               (resolved_content_key contentKey c) in
  cancelTokenSources c !! key = Some token ->
  calls c !! token = Some (DraftCall closure false) ->
  let c1 := snd (fetchContent language withPendingChanges contentKey c) in
  calls c1 !! token = Some (DraftCall closure true)
  /\ cancelTokenSources c1 !! key = None
  /\ network c1 = network c.
Proof.
  intros Hl Hc Hm Hk key Hsrc Hcall. cbv zeta.
  rewrite (fetchContent_draft _ _ _ _ Hl Hc Hm Hk). cbn [snd].
  destruct (schedule_draft_facts (fresh c) (resolved_language language c)
              (resolved_content_key contentKey c) (entered language c))
    as (_ & _ & S3 & _ & _ & S6 & _).
  split; [|split; [exact S3 | rewrite S6; reflexivity]].
  rewrite schedule_draft_superseded. cbv zeta. simpl calls.
  apply superseded_cancels; assumption.
Qed.

Lemma draft_invocation_cancels_in_flight_witness :
  let c := run_events [Invoke VUndefined VUndefined VUndefined; TimerFires 2]
             (configured draft_config) in
  let closure := draft_closure 1 (VStr "EN") (VStr "my-key") in
  let key := request_key (resolved_language VUndefined c)
               (resolved_content_key VUndefined c) in
  let c1 := snd (fetchContent VUndefined VUndefined VUndefined c) in
  calls c1 !! 3 = Some (DraftCall closure true)
  /\ cancelTokenSources c1 !! key = None
  /\ network c1 = network c.
Proof.
  apply (draft_invocation_cancels_in_flight VUndefined VUndefined VUndefined 3
           (draft_closure 1 (VStr "EN") (VStr "my-key"))).
  - reflexivity.
  - reflexivity.
  - reflexivity.
  - reflexivity.
  - vm_compute. reflexivity.
  - vm_compute. reflexivity.
Defined.

(** X25. When the outcome of a cancelled call is delivered, the call
    ends quietly whatever the outcome is, a complete response included:
    its promise is resolved, the active content and the recorded language
    are not touched, and the console gains one line saying that the
    request was cancelled. *)
Theorem cancelled_call_ends_quietly (token : nat) (closure : Closure)
  (o : outcome) (c : Coordinator) :
  calls c !! token = Some (DraftCall closure true) ->
  promises c !! promise closure = Some Pending ->
  let c' := step (OutcomeArrives token o) c in
  promises c' !! promise closure = Some Resolved
  /\ activeContent (world c') = activeContent (world c)
  /\ currentLanguageCode (world c') = currentLanguageCode (world c)
  /\ console (world c')
     = console (world c) ++ [(Log, Fetch_RequestCancelled (languageToFetch closure))].
Proof.
  intros Hcall Hp. cbv zeta. simpl. rewrite Hcall.
  unfold draft_continuation, in_world, bind, lift, awaited. simpl.
  unfold settle. simpl. rewrite Hp. simpl.
  split; [apply lookup_insert_eq | repeat split].
Qed.

Lemma cancelled_call_ends_quietly_witness :
  let c := run_events [Invoke VUndefined VUndefined VUndefined; TimerFires 2;
                       Invoke VUndefined VUndefined VUndefined]
             (configured draft_config) in
  let closure := draft_closure 1 (VStr "EN") (VStr "my-key") in
  let c' := step (OutcomeArrives 3 (Response (VObj [("A", VStr "v")]))) c in
  promises c' !! promise closure = Some Resolved
  /\ activeContent (world c') = activeContent (world c)
  /\ currentLanguageCode (world c') = currentLanguageCode (world c)
  /\ console (world c')
     = console (world c) ++ [(Log, Fetch_RequestCancelled (languageToFetch closure))].
Proof.
  apply (cancelled_call_ends_quietly 3 (draft_closure 1 (VStr "EN") (VStr "my-key"))).
  - vm_compute. reflexivity.
  - vm_compute. reflexivity.
Defined.

(** ** Fetch Coordinator: what holds in every reachable state *)

Lemma outcome_keeps_timers token o c :
  timers (step (OutcomeArrives token o) c) = timers c
  /\ debounceTimers (step (OutcomeArrives token o) c) = debounceTimers c.
Proof.
  simpl. destruct (calls c !! token) as [[closure cancelled | target l u q]|];
    [| |split; reflexivity].
  - unfold draft_continuation.
    match goal with |- context [in_world ?m ?c0] =>
      pose proof (in_world_fields m c0) as (_ & _ & Ht1 & _ & _ & Hd1 & _);
      destruct (in_world m c0) as [r c1] end.
    simpl in Ht1, Hd1.
    destruct r as [[]|error].
    + match goal with |- context [settle ?q ?s ?c0] =>
        destruct (settle_other_fields q s c0) as (_ & -> & _ & _ & _ & -> & _) end.
      simpl. split; assumption.
    + cbv zeta.
      destruct error;
        match goal with |- context [in_world ?m ?c0] =>
          pose proof (in_world_fields m c0) as (_ & _ & Ht3 & _ & _ & Hd3 & _);
          destruct (in_world m c0) as [r3 c3] end;
        simpl in Ht3, Hd3;
        match goal with |- context [settle ?q ?s ?c0] =>
          destruct (settle_other_fields q s c0) as (_ & -> & _ & _ & _ & -> & _) end;
        split; congruence.
  - unfold cdn_continuation.
    match goal with |- context [in_world ?m ?c0] =>
      pose proof (in_world_fields m c0) as (_ & _ & Ht1 & _ & _ & Hd1 & _);
      destruct (in_world m c0) as [r c1] end.
    simpl in Ht1, Hd1.
    destruct (settle_other_fields q Resolved c1) as (_ & -> & _ & _ & _ & -> & _).
    split; assumption.
Qed.

Lemma superseded_registered key c :
  timers_registered c ->
  timers_registered (superseded key c)
  /\ map_Forall (fun _ closure => requestKey closure <> key) (timers (superseded key c)).
Proof.
  intros Hreg. unfold superseded.
  set (c1 := match cancelTokenSources c !! key with
             | Some src => with_cancelTokenSources _ (cancel src c)
             | None => c end).
  assert (H1 : timers c1 = timers c /\ debounceTimers c1 = debounceTimers c).
  { subst c1. destruct (cancelTokenSources c !! key) as [src|]; [|split; reflexivity].
    simpl. unfold cancel.
    destruct (calls c !! src) as [[closure cancelled | t' l u q]|]; split; reflexivity. }
  assert (Hreg1 : timers_registered c1).
  { unfold timers_registered. destruct H1 as [-> ->]. exact Hreg. }
  clearbody c1. clear H1 Hreg.
  destruct (debounceTimers c1 !! key) as [t|] eqn:Hd.
  - unfold timers_registered. simpl. split.
    + intros h closure Hh. apply lookup_delete_Some in Hh as [Hne Hh].
      pose proof (Hreg1 _ _ Hh) as Hr. simpl in Hr.
      rewrite lookup_delete_ne; [exact Hr|].
      intros Heq. rewrite <- Heq, Hd in Hr. congruence.
    + intros h closure Hh Heq. apply lookup_delete_Some in Hh as [Hne Hh].
      pose proof (Hreg1 _ _ Hh) as Hr. simpl in Hr.
      rewrite Heq, Hd in Hr. congruence.
  - split; [exact Hreg1|].
    intros h closure Hh Heq. pose proof (Hreg1 _ _ Hh) as Hr. simpl in Hr.
    rewrite Heq, Hd in Hr. discriminate.
Qed.

Lemma timers_registered_step e c :
  timers_registered c -> timers_registered (step e c).
Proof.
  intros Hreg.
  destruct e as [a | language withPending contentKey | timer | token o].
  - simpl. destruct (in_world_fields (api_run a) c) as (_ & _ & Ht & _ & _ & Hd & _).
    unfold timers_registered. rewrite Ht, Hd. exact Hreg.
  - simpl.
    destruct (fetchContent_cases language withPending contentKey c)
      as (_ & [(e & _ & ->) | [(l & k & _ & ->) | (target & l & u & _ & ->)]]).
    + destruct (settle_other_fields (fresh c) (Rejected e) (entered language c))
        as (_ & Ht & _ & _ & _ & Hd & _).
      unfold timers_registered. rewrite Ht, Hd. exact Hreg.
    + rewrite schedule_draft_superseded. cbv zeta.
      assert (Hreg1 : timers_registered (entered language c)) by exact Hreg.
      destruct (superseded_registered (request_key l k) _ Hreg1) as (Hr & Hk).
      unfold timers_registered. simpl.
      apply map_Forall_insert_2; [apply lookup_insert_eq|].
      intros h closure Hh. simpl.
      rewrite lookup_insert_ne; [exact (Hr _ _ Hh)|].
      intros Heq. exact (Hk _ _ Hh (eq_sym Heq)).
    + exact Hreg.
  - simpl. destruct (timers c !! timer) as [closure|] eqn:Ht; [|exact Hreg].
    unfold timer_callback, allocate, timers_registered. cbv beta iota zeta. simpl.
    intros h closure' Hh. apply lookup_delete_Some in Hh as [Hne Hh].
    pose proof (Hreg _ _ Hh) as Hr. simpl in Hr.
    rewrite lookup_delete_ne; [exact Hr|].
    intros Heq. pose proof (Hreg _ _ Ht) as Hr0. simpl in Hr0.
    rewrite Heq in Hr0. congruence.
  - destruct (outcome_keeps_timers token o c) as (Ht & Hd).
    unfold timers_registered. rewrite Ht, Hd. exact Hreg.
Qed.

Lemma timers_registered_reachable c : reachable c -> timers_registered c.
Proof.
  intros (frame & es & ->).
  assert (H0 : timers_registered (initial_coordinator frame))
    by apply map_Forall_empty.
  revert H0. generalize (initial_coordinator frame).
  induction es as [|e es IH]; intros c H0; [exact H0|].
  simpl. apply IH. apply timers_registered_step. exact H0.
Qed.

Lemma two_draft_invocations_reachable : reachable two_draft_invocations.
Proof.
  exists false,
    [Calls (CallInitContentStorage cdn_config);
     Invoke (VStr "EN") (VBool true) VUndefined;
     Invoke (VStr "EN") (VBool true) VUndefined].
  unfold two_draft_invocations, configured, run_events. cbn [fold_left].
  reflexivity.
Qed.

(** X26. In every reachable state at most one debounce timer is armed
    per request key: each armed timer is the one registered under its
    key, so two armed timers with the same key are one and the same. *)
Theorem one_timer_per_request_key (c : Coordinator) (h1 h2 : nat)
  (closure1 closure2 : Closure) :
  reachable c ->
  timers c !! h1 = Some closure1 ->
  timers c !! h2 = Some closure2 ->
  requestKey closure1 = requestKey closure2 ->
  debounceTimers c !! requestKey closure1 = Some h1 /\ h1 = h2.
Proof.
  intros Hreach H1 H2 Hkey.
  pose proof (timers_registered_reachable c Hreach) as Hreg.
  pose proof (Hreg _ _ H1) as R1. pose proof (Hreg _ _ H2) as R2.
  simpl in R1, R2. split; [exact R1|]. rewrite Hkey in R1. congruence.
Qed.

Lemma one_timer_per_request_key_witness :
  debounceTimers two_draft_invocations
    !! requestKey (draft_closure 3 (VStr "EN") (VStr "my-key")) = Some 4
  /\ 4 = 4.
Proof.
  apply (one_timer_per_request_key two_draft_invocations 4 4
           (draft_closure 3 (VStr "EN") (VStr "my-key"))
           (draft_closure 3 (VStr "EN") (VStr "my-key"))).
  - exact two_draft_invocations_reachable.
  - vm_compute. reflexivity.
  - vm_compute. reflexivity.
  - reflexivity.
Defined.

Section Keeps.
Variable P : World -> Prop.

Lemma keeps_ret {A} (a : A) : keeps P (ret a).
Proof. intros w H. exact H. Qed.

Lemma keeps_lift {A} (c : completion A) : keeps P (lift c).
Proof. intros w H. exact H. Qed.

Lemma keeps_throw {A} (e : exn) : keeps P (@throw A e).
Proof. intros w H. exact H. Qed.

Lemma keeps_bind {A B} (c : M A) (k : A -> M B) :
  keeps P c -> (forall a, keeps P (k a)) -> keeps P (bind c k).
Proof.
  intros Hc Hk w H. specialize (Hc w H). unfold bind.
  destruct (c w) as [[a|e] w1]; simpl in Hc |- *; [apply Hk|]; exact Hc.
Qed.

Lemma keeps_try_catch {A} (body : M A) (handler : exn -> M A) :
  keeps P body -> (forall e, keeps P (handler e)) -> keeps P (try_catch body handler).
Proof.
  intros Hb Hh w H. specialize (Hb w H). unfold try_catch.
  destruct (body w) as [[a|e] w1]; simpl in Hb |- *; [|apply Hh]; exact Hb.
Qed.

Hypothesis keeps_api : forall a, keeps P (api_run a).
Hypothesis keeps_emit : forall l msg, keeps P (emit l msg).
Hypothesis keeps_setContentLanguage :
  forall languageCode contentJson, keeps P (setContentLanguage languageCode contentJson).

Lemma keeps_draft_try_block language body : keeps P (draft_try_block language body).
Proof.
  unfold draft_try_block.
  apply keeps_bind.
  - destruct (truthy body && type_tag_eqb (typeof body) TObject);
      [|apply keeps_ret].
    apply keeps_bind; [apply keeps_lift|].
    intros [|]; [apply keeps_lift | apply keeps_ret].
  - intros jsonData.
    destruct jsonData; try apply keeps_throw;
      (destruct (negb _); [apply keeps_throw|]);
      (apply keeps_bind; [apply keeps_emit | intros; apply keeps_setContentLanguage]).
Qed.

Lemma keeps_cdn_try_block language mode body :
  keeps P (cdn_try_block language mode body).
Proof.
  unfold cdn_try_block.
  apply keeps_bind.
  - destruct (truthy mode && truthy body && type_tag_eqb (typeof body) TObject);
      [|apply keeps_ret].
    apply keeps_bind; [apply keeps_lift|].
    intros [|]; [apply keeps_lift | apply keeps_ret].
  - intros jsonData.
    destruct jsonData; try apply keeps_throw;
      (destruct (negb _); [apply keeps_throw|]);
      (apply keeps_bind; [apply keeps_emit | intros; apply keeps_setContentLanguage]).
Qed.

Lemma keeps_log_fetch_error language target error :
  keeps P (log_fetch_error language target error).
Proof.
  unfold log_fetch_error, console_error.
  apply keeps_bind; [apply keeps_emit|]. intros _.
  destruct error; try apply keeps_emit.
  repeat (apply keeps_bind; [apply keeps_emit|intros _]). apply keeps_emit.
Qed.

Lemma in_world_world {A} (m : M A) c :
  world (snd (in_world m c)) = snd (m (world c)).
Proof. unfold in_world. destruct (m (world c)). reflexivity. Qed.

Lemma fetchContent_world language withPendingChanges contentKey c :
  world (snd (fetchContent language withPendingChanges contentKey c))
  = snd (console_log (Fetch_Starting language) (world c)).
Proof.
  destruct (fetchContent_cases language withPendingChanges contentKey c)
    as (_ & [(e & _ & ->) | [(l & k & _ & ->) | (target & l & u & _ & ->)]]).
  - destruct (settle_other_fields (fresh c) (Rejected e) (entered language c))
      as (_ & _ & _ & _ & -> & _). reflexivity.
  - destruct (schedule_draft_facts (fresh c) l k (entered language c))
      as (_ & _ & _ & _ & _ & _ & ->). reflexivity.
  - reflexivity.
Qed.

(** A property of the world that the entry points of the module keep is
    kept by every turn of the event loop. *)
Lemma step_keeps e c : P (world c) -> P (world (step e c)).
Proof.
  intros H. destruct e as [a | language withPending contentKey | timer | token o].
  - simpl. rewrite in_world_world. apply keeps_api. exact H.
  - simpl. rewrite fetchContent_world. apply keeps_emit. exact H.
  - simpl. destruct (timers c !! timer); exact H.
  - simpl. destruct (calls c !! token) as [[closure cancelled | target l u q]|];
      [| |exact H].
    + unfold draft_continuation.
      match goal with |- context [in_world ?m ?c0] =>
        assert (H1 : P (world (snd (in_world m c0))));
        [|destruct (in_world m c0) as [r c1]] end.
      { rewrite in_world_world. apply keeps_bind;
          [apply keeps_lift | intros; apply keeps_draft_try_block | exact H]. }
      cbn [snd] in H1.
      destruct r as [[]|error].
      * match goal with |- context [settle ?q ?s ?c0] =>
          destruct (settle_other_fields q s c0) as (_ & _ & _ & _ & -> & _) end.
        exact H1.
      * cbv zeta.
        destruct error;
          match goal with |- context [in_world ?m ?c0] =>
            assert (H3 : P (world (snd (in_world m c0))));
            [rewrite in_world_world;
             first [exact (keeps_emit _ _ _ H1)
                   | exact (keeps_log_fetch_error _ _ _ _ H1)]
            |destruct (in_world m c0) as [r3 c3]] end;
          cbn [snd] in H3;
          match goal with |- context [settle ?q ?s ?c0] =>
            destruct (settle_other_fields q s c0) as (_ & _ & _ & _ & -> & _) end;
          exact H3.
    + unfold cdn_continuation.
      match goal with |- context [in_world ?m ?c0] =>
        assert (H1 : P (world (snd (in_world m c0))));
        [|destruct (in_world m c0) as [r c1]] end.
      { rewrite in_world_world. apply keeps_try_catch.
        - apply keeps_bind; [apply keeps_lift | intros; apply keeps_cdn_try_block].
        - intros; apply keeps_log_fetch_error.
        - exact H. }
      cbn [snd] in H1.
      destruct (settle_other_fields q Resolved c1) as (_ & _ & _ & _ & -> & _).
      exact H1.
Qed.

End Keeps.

Lemma store_typed_observes {A} (m : M A) : observes_only m -> keeps store_typed m.
Proof.
  intros Hobs w [Hc Ha]. destruct (Hobs w) as (H1 & H2 & _).
  unfold store_typed. rewrite H1, H2. split; assumption.
Qed.

Lemma store_typed_emit l msg : keeps store_typed (emit l msg).
Proof. intros w H. exact H. Qed.

Lemma store_typed_setContentLanguage languageCode contentJson :
  keeps store_typed (setContentLanguage languageCode contentJson).
Proof.
  intros w [Hc Ha]. unfold setContentLanguage.
  destruct contentJson; simpl; rewrite ?orb_true_r; simpl;
    try (split; assumption);
    unfold store_typed; simpl; (split; [right; reflexivity | exact Ha]).
Qed.

Lemma store_typed_initContentStorage config :
  keeps store_typed (initContentStorage config).
Proof.
  intros w [Hc Ha]. unfold initContentStorage, bind, ret, lift, throw.
  destruct config as [| | b | n | s | elems | fields]; simpl;
    try (split; assumption).
  - destruct b; simpl; split; assumption.
  - destruct (negb (n =? 0)%Z); simpl; split; assumption.
  - destruct (negb (String.eqb s "")); simpl; split; assumption.
  - destruct (truthy (default VUndefined (assoc "contentKey" fields))) eqn:Hk;
      simpl; rewrite ?Hk; simpl; [|split; assumption].
    destruct (isArray (default VUndefined (assoc "languageCodes" fields))) eqn:Hl;
      simpl; rewrite ?Hk, ?Hl; simpl; [|split; assumption].
    unfold store_typed. simpl. split; [exact Hc|].
    right. rewrite Hk, Hl. reflexivity.
Qed.

Lemma store_typed_api a : keeps store_typed (api_run a).
Proof.
  destruct a as [config | languageCode contentJson | path vars | path | path vk vars];
    simpl.
  - apply store_typed_initContentStorage.
  - apply store_typed_setContentLanguage.
  - apply store_typed_observes.
    apply observes_bind; [apply getText_observes | intros; apply observes_ret].
  - apply store_typed_observes.
    apply observes_bind; [apply getImage_observes | intros; apply observes_ret].
  - apply store_typed_observes.
    apply observes_bind; [apply getVariation_observes | intros; apply observes_ret].
Qed.

Lemma store_typed_reachable c : reachable c -> store_typed (world c).
Proof.
  intros (frame & es & ->).
  assert (H0 : store_typed (world (initial_coordinator frame)))
    by (split; left; reflexivity).
  revert H0. generalize (initial_coordinator frame).
  induction es as [|e es IH]; intros c H0; [exact H0|].
  simpl. apply IH.
  apply (step_keeps store_typed store_typed_api store_typed_emit
           store_typed_setContentLanguage).
  exact H0.
Qed.



Lemma config_ok_content_key config contentKey :
  config_ok config = true ->
  truthy config = true
  /\ truthy (js_or contentKey (opt_chain config "contentKey")) = true.
Proof.
  destruct config as [| | b | n | s | elems | fields]; try discriminate.
  simpl. intros H. apply andb_true_iff in H as [Hk _].
  split; [reflexivity|]. unfold js_or.
  destruct (truthy contentKey) eqn:E; [exact E | exact Hk].
Qed.

Lemma fetchContent_no_language language withPendingChanges contentKey c :
  truthy (resolved_language language c) = false ->
  fetchContent language withPendingChanges contentKey c
  = (fresh c, settle (fresh c) (Rejected NoLanguageFound) (entered language c)).
Proof.
  unfold resolved_language. intros Hl.
  unfold fetchContent, entered. unfold allocate at 1 2. cbv beta iota zeta.
  unfold in_world, console_log, emit. cbv beta iota zeta. simpl.
  rewrite Hl. reflexivity.
Qed.

Lemma fetchContent_no_config language withPendingChanges contentKey c :
  truthy (resolved_language language c) = true ->
  truthy (appConfig (world c)) = false ->
  fetchContent language withPendingChanges contentKey c
  = (fresh c, settle (fresh c) (Rejected NoAppConfigFound) (entered language c)).
Proof.
  unfold resolved_language. intros Hl Hc.
  unfold fetchContent, entered. unfold allocate at 1 2. cbv beta iota zeta.
  unfold in_world, console_log, emit. cbv beta iota zeta. simpl.
  rewrite Hl, Hc. reflexivity.
Qed.

Lemma settle_entered language s c :
  promises (settle (fresh c) s (entered language c)) !! fresh c = Some s.
Proof.
  unfold settle. simpl. rewrite lookup_insert_eq. simpl. apply lookup_insert_eq.
Qed.



(** ** Fetch Coordinator: mode selection and what can write the store *)

(** X29. The mode is [withPendingChanges || appConfig.pendingChanges]:
    when the stored configuration has a truthy [pendingChanges], an
    explicit [withPendingChanges: false] (or any other falsy value) does
    not switch the call to the CDN.  The call goes down the draft path: it
    arms a timer and issues no network call. *)
Theorem configured_draft_mode_wins
  (language withPendingChanges contentKey : value) (c : Coordinator) :
  truthy (opt_chain (appConfig (world c)) "pendingChanges") = true ->
  truthy withPendingChanges = false ->
  truthy (resolved_language language c) = true ->
  truthy (resolved_content_key contentKey c) = true ->
  let c1 := snd (fetchContent language withPendingChanges contentKey c) in
  network c1 = network c
  /\ exists closure,
       timers c1 !! S (fresh c) = Some closure
       /\ promise closure = fresh c
       /\ fileUrl closure = DraftUrl (to_String (resolved_language language c)).
Proof.
  intros Hcfg Hw Hl Hk. cbv zeta.
  assert (Hc : truthy (appConfig (world c)) = true).
  { destruct (appConfig (world c)); simpl in Hcfg |- *; try discriminate; reflexivity. }
  assert (Hm : truthy (resolved_mode withPendingChanges c) = true).
  { unfold resolved_mode, js_or. rewrite Hw. exact Hcfg. }
  rewrite (fetchContent_draft _ _ _ _ Hl Hc Hm Hk). cbn [snd].
  destruct (schedule_draft_facts (fresh c) (resolved_language language c)
              (resolved_content_key contentKey c) (entered language c))
    as (S1 & _ & _ & _ & _ & S6 & _).
  split; [rewrite S6; reflexivity|].
  eexists. split; [exact S1|]. split; reflexivity.
Qed.

Lemma configured_draft_mode_wins_witness :
  let c := configured draft_config in
  let c1 := snd (fetchContent (VStr "EN") (VBool false) VUndefined c) in
  network c1 = network c
  /\ exists closure,
       timers c1 !! S (fresh c) = Some closure
       /\ promise closure = fresh c
       /\ fileUrl closure = DraftUrl (to_String (resolved_language (VStr "EN") c)).
Proof.
  apply (configured_draft_mode_wins (VStr "EN") (VBool false) VUndefined
           (configured draft_config)); reflexivity.
Defined.

Lemma failure_keeps_store token status responseData c :
  activeContent (world (step (OutcomeArrives token (Failure status responseData)) c))
  = activeContent (world c)
  /\ currentLanguageCode
       (world (step (OutcomeArrives token (Failure status responseData)) c))
     = currentLanguageCode (world c).
Proof.
  simpl. destruct (calls c !! token) as [[closure cancelled | target l u q]|];
    [| |split; reflexivity].
  - unfold draft_continuation, in_world, bind, lift, awaited.
    destruct cancelled; simpl;
      match goal with |- context [settle ?q ?s ?c0] =>
        destruct (settle_other_fields q s c0) as (_ & _ & _ & _ & -> & _) end;
      split; reflexivity.
  - unfold cdn_continuation, in_world, try_catch, bind, lift, awaited. simpl.
    match goal with |- context [settle ?q ?s ?c0] =>
      destruct (settle_other_fields q s c0) as (_ & _ & _ & _ & -> & _) end.
    split; reflexivity.
Qed.

(** X30. Only a delivered response can change what the store holds.  A
    call of [fetchContent], the firing of a timer and a transport failure
    leave the active content and the recorded language exactly as they
    were, in any state and on either path. *)
Theorem store_written_only_by_responses (e : event) (c : Coordinator) :
  (forall a, e <> Calls a) ->
  (forall token body, e <> OutcomeArrives token (Response body)) ->
  activeContent (world (step e c)) = activeContent (world c)
  /\ currentLanguageCode (world (step e c)) = currentLanguageCode (world c).
Proof.
  intros Hcalls Hresp.
  destruct e as [a | language withPending contentKey | timer | token [body | s d]].
  - destruct (Hcalls a). reflexivity.
  - simpl. rewrite fetchContent_world. split; reflexivity.
  - simpl. destruct (timers c !! timer); split; reflexivity.
  - destruct (Hresp token body). reflexivity.
  - apply failure_keeps_store.
Qed.

Lemma store_written_only_by_responses_witness :
  activeContent (world (step (Invoke (VStr "EN") VUndefined VUndefined)
                          (configured cdn_config)))
  = activeContent (world (configured cdn_config))
  /\ currentLanguageCode (world (step (Invoke (VStr "EN") VUndefined VUndefined)
                                   (configured cdn_config)))
     = currentLanguageCode (world (configured cdn_config)).
Proof.
  apply store_written_only_by_responses.
  - intros a. discriminate.
  - intros token body. discriminate.
Defined.
